(** * Black-Scholes pricing, Greeks and strategy aggregation

    A shallow embedding of [risk_metrics.py] (classes [BlackScholes] and
    [Risk]) and [strategy.py] (classes [Leg] and [Strategy]).

    Numbers.  Python floats are read as real numbers: [+], [-], [*], [/]
    and [**] are the operations of [R], so rounding is outside the model.
    Formulas and equalities are stated on this reading.  A strict sign or
    a strict bound is another matter: binary64 takes the distribution
    function to exactly 1.0 and 0.0 and the density to exactly 0.0 far
    enough from the origin.  The definitions [norm_cdf_b64] and
    [norm_pdf_b64] add these two ends of the range to the reading over
    the reals, and [delta_b64], [gamma_b64], [vega_b64] are the methods of
    [Risk] over them.
    [np.log], [np.sqrt] and [np.exp] are [ln], [sqrt] and [exp]; they agree
    with numpy on the domain the contract fixes (S > 0, K > 0, T > 0,
    sigma > 0), where no infinity or NaN arises.  A Python division
    [self.S / self.K] by zero raises [ZeroDivisionError], which the model
    keeps.

    Library code.  [scipy.stats.norm.pdf] and [scipy.stats.norm.cdf] are
    the density and the distribution function of the standard normal law,
    written out below; what the claims need of them (symmetry, the bounds
    0 < cdf < 1, cdf' = pdf) is proved, not assumed.
    [scipy.optimize.fmin] is not code of this repository: it is a
    parameter of the development. *)

From Stdlib Require Import Reals Lra String List Permutation.
Import ListNotations.
Open Scope R_scope.

(** ** Python values and exceptions *)

(** What a method hands back: a float, or [None] when control falls off
    the end of the body. *)
Inductive value : Type :=
| Float (x : R)
| PyNone.

Inductive exn : Type :=
| ZeroDivisionError
| TypeError.

(** Outcome of a call: a returned result or a raised exception. *)
Inductive res (A : Type) : Type :=
| Return (a : A)
| Raise (e : exn).
Arguments Return {A} a.
Arguments Raise {A} e.

Definition bind {A B : Type} (m : res A) (k : A -> res B) : res B :=
  match m with
  | Return a => k a
  | Raise e => Raise e
  end.

Notation "x <- m ;; k" := (bind m (fun x => k))
  (at level 61, m at next level, right associativity).

(** Python's [a / b] on numbers. *)
Definition py_div (a b : R) : res R :=
  if Req_dec_T b 0 then Raise ZeroDivisionError else Return (a / b).

(** Python's [v - p] where [v] may be [None]. *)
Definition py_sub (v : value) (p : R) : res R :=
  match v with
  | Float x => Return (x - p)
  | PyNone => Raise TypeError
  end.

(** Python's [acc += v] on a float accumulator where [v] may be [None]. *)
Definition py_iadd (acc : R) (v : value) : res R :=
  match v with
  | Float x => Return (acc + x)
  | PyNone => Raise TypeError
  end.

(** ** Stateful computations

    [strategy.py] builds and reads objects; its methods are computations
    over a state [St] that may raise. *)
Definition M (St A : Type) : Type := St -> res A * St.

Definition ret {St A : Type} (a : A) : M St A := fun s => (Return a, s).

Definition mbind {St A B : Type} (m : M St A) (k : A -> M St B) : M St B :=
  fun s =>
    match m s with
    | (Return a, s') => k a s'
    | (Raise e, s') => (Raise e, s')
    end.

Definition lift {St A : Type} (r : res A) : M St A := fun s => (r, s).

Definition gets {St A : Type} (f : St -> A) : M St A := fun s => (Return (f s), s).

Notation "x <~ m ;; k" := (mbind m (fun x => k))
  (at level 61, m at next level, right associativity).

(** ** The standard normal law: [norm.pdf] and [norm.cdf] *)

Definition norm_pdf (x : R) : R := exp (- (x ^ 2) / 2) / sqrt (2 * PI).

Lemma sqrt_2PI_pos : 0 < sqrt (2 * PI).
Proof. apply sqrt_lt_R0. apply Rmult_lt_0_compat; [lra | apply PI_RGT_0]. Qed.

Lemma norm_pdf_continuity : continuity norm_pdf.
Proof. unfold norm_pdf. assert (H := sqrt_2PI_pos). reg. Qed.

Lemma norm_pdf_integrable (a b : R) : Riemann_integrable norm_pdf a b.
Proof.
  destruct (Rle_dec a b) as [Hab | Hab].
  - apply continuity_implies_RiemannInt; [exact Hab |].
    intros x _. apply norm_pdf_continuity.
  - apply RiemannInt_P1. apply continuity_implies_RiemannInt; [lra |].
    intros x _. apply norm_pdf_continuity.
Qed.

(** The distribution function: 1/2 plus the integral of the density from
    0 to x. *)
Definition norm_cdf (x : R) : R :=
  1 / 2 + RiemannInt (norm_pdf_integrable 0 x).

(** Auxiliary functions for the bounds of [norm_cdf]: a Gaussian kernel
    exp(-a*x^2/2), the integrand exp(-(1+t^2)*x^2/2)/(1+t^2) and its first
    two derivatives in x. *)
Definition kern (a x : R) : R := exp (- (a * (x * x)) / 2).
Definition slice (x t : R) : R := kern (1 + t * t) x / (1 + t * t).
Definition slice_dx (x t : R) : R := - x * kern (1 + t * t) x.
Definition slice_dxx (x t : R) : R :=
  ((1 + t * t) * (x * x) - 1) * kern (1 + t * t) x.

(** *** The ends of the binary64 range

    Over the reals the distribution function stays strictly between 0 and
    1 and [exp] stays strictly positive.  Binary64 has no number strictly
    between 1 - 2^-53 and 1, and none strictly between 0 and 2^-1074:
    rounding to nearest, ties to even, takes every real from 1 - 2^-54 up
    to 1 to the float 1.0, and every real from 0 up to 2^-1075 to the float
    0.0.  Inside the range the value is left exact, as everywhere else in
    the model. *)
Definition b64_to_one (y : R) : R :=
  if Rle_dec (1 - / 2 ^ 54) y then 1 else y.

Definition b64_underflow (y : R) : R :=
  if Rle_dec y (/ 2 ^ 1075) then 0 else y.

(** [np.exp] on binary64. *)
Definition np_exp_b64 (y : R) : R := b64_underflow (exp y).

(** [norm.pdf] on binary64: scipy computes
    [np.exp(-x**2 / 2.0) / np.sqrt(2 * np.pi)]. *)
Definition norm_pdf_b64 (x : R) : R :=
  b64_underflow (np_exp_b64 (- (x ^ 2) / 2) / sqrt (2 * PI)).

(** [norm.cdf] on binary64. *)
Definition norm_cdf_b64 (x : R) : R :=
  b64_underflow (b64_to_one (norm_cdf x)).

(** ** The formulas of the specification

    Written from the specification's text, with the distribution function
    [Phi] and the density [phi] as it names them; the theorems compare the
    methods of the source with these. *)
Module Spec.

Definition phi (x : R) : R := exp (- (x * x / 2)) / sqrt (2 * PI).

Section Formulas.
Variable Phi : R -> R.
Variables S K T r sigma : R.

Definition d1 : R := (ln (S / K) + (r + 0.5 * (sigma * sigma)) * T) / (sigma * sqrt T).
Definition d2 : R := d1 - sigma * sqrt T.
Definition call_premium : R := S * Phi d1 - K * exp (- (r * T)) * Phi d2.
Definition put_premium : R := K * exp (- (r * T)) * Phi (- d2) - S * Phi (- d1).
Definition call_delta : R := Phi d1.
Definition put_delta : R := Phi d1 - 1.
Definition gamma : R := phi d1 / (S * sigma * sqrt T).
Definition vega_per_unit_sigma : R := S * phi d1 * sqrt T.
Definition vega : R := vega_per_unit_sigma / 100.

End Formulas.
End Spec.

(** The sum of a list of numbers. *)
Definition total (xs : list R) : R := fold_right Rplus 0 xs.

(** The number in a cached field. *)
Definition as_float (v : value) : R :=
  match v with
  | Float x => x
  | PyNone => 0
  end.

(** A search that stops at its start point: a one-dimensional [fmin] with
    no iteration left, used where a statement is checked on concrete
    numbers. *)
Definition fmin_stalled (f : R -> R) (x0 : R) : R := x0.

(** ** [risk_metrics.py] *)

Section RiskMetrics.

(** [scipy.optimize.fmin(func, [x0], disp=False)[0]] for a one-dimensional
    start point: the point the simplex search settles on. *)
Variable fmin : (R -> R) -> R -> R.

Record BlackScholes : Type := mkBlackScholes {
  bs_S : R;
  bs_K : R;
  bs_T : R;
  bs_r : R;
  bs_option : string
}.

(** The expression bound to [d1] in [black_scholes], [delta], [gamma] and
    [vega]; the four copies in the source are textually the same. *)
Definition d1_expr (S K T r sigma : R) : res R :=
  q <- py_div S K ;;
  Return ((ln q + (r + 0.5 * sigma ^ 2) * T) / (sigma * sqrt T)).

Definition black_scholes (self : BlackScholes) (sigma : R) : res value :=
  d1 <- d1_expr (bs_S self) (bs_K self) (bs_T self) (bs_r self) sigma ;;
  let d2 := d1 - sigma * sqrt (bs_T self) in
  if String.eqb (bs_option self) "call" then
    Return (Float (bs_S self * norm_cdf d1
                   - bs_K self * exp (- bs_r self * bs_T self) * norm_cdf d2))
  else if String.eqb (bs_option self) "put" then
    Return (Float (bs_K self * exp (- bs_r self * bs_T self) * norm_cdf (- d2)
                   - bs_S self * norm_cdf (- d1)))
  else Return PyNone.

(** [target = lambda sigma: (self.black_scholes(sigma) - price) ** 2]. *)
Definition target (self : BlackScholes) (price : R) (sigma : R) : res R :=
  v <- black_scholes self sigma ;;
  d <- py_sub v price ;;
  Return (d ^ 2).

(** [fmin] evaluates the objective at the start point before anything
    else, so an exception of [target] there leaves [implied_volatility].
    Whether [target] raises depends on [K] and on the option label only,
    never on [sigma]; when it does not raise, [fmin] sees a total
    function. *)
Definition target_fn (self : BlackScholes) (price : R) (sigma : R) : R :=
  match target self price sigma with
  | Return y => y
  | Raise _ => 0
  end.

(** The premium as a function of sigma, where [black_scholes] returns a
    float. *)
Definition premium_fn (self : BlackScholes) (sigma : R) : R :=
  match black_scholes self sigma with
  | Return (Float x) => x
  | _ => 0
  end.

Definition implied_volatility (self : BlackScholes) (sigma price : R) : res R :=
  _ <- target self price sigma ;;
  Return (fmin (target_fn self price) sigma).

Record Risk : Type := mkRisk {
  rk_S : R;
  rk_K : R;
  rk_T : R;
  rk_r : R;
  rk_sigma : R;
  rk_option : string
}.

Definition delta (self : Risk) : res value :=
  d1 <- d1_expr (rk_S self) (rk_K self) (rk_T self) (rk_r self) (rk_sigma self) ;;
  if String.eqb (rk_option self) "call" then Return (Float (norm_cdf d1))
  else if String.eqb (rk_option self) "put" then Return (Float (norm_cdf d1 - 1))
  else Return PyNone.

Definition gamma (self : Risk) : res value :=
  d1 <- d1_expr (rk_S self) (rk_K self) (rk_T self) (rk_r self) (rk_sigma self) ;;
  Return (Float (norm_pdf d1 / (rk_S self * rk_sigma self * sqrt (rk_T self)))).

Definition vega (self : Risk) : res value :=
  d1 <- d1_expr (rk_S self) (rk_K self) (rk_T self) (rk_r self) (rk_sigma self) ;;
  Return (Float (rk_S self * norm_pdf d1 * sqrt (rk_T self) / 100)).

(** The delta as a number, where [delta] returns a float. *)
Definition delta_fn (self : Risk) : R :=
  match delta self with
  | Return (Float x) => x
  | _ => 0
  end.

(** The three methods of [Risk] with [norm.cdf] and [norm.pdf] on
    binary64: the same bodies, line by line. *)
Definition delta_b64 (self : Risk) : res value :=
  d1 <- d1_expr (rk_S self) (rk_K self) (rk_T self) (rk_r self) (rk_sigma self) ;;
  if String.eqb (rk_option self) "call" then Return (Float (norm_cdf_b64 d1))
  else if String.eqb (rk_option self) "put" then
    Return (Float (norm_cdf_b64 d1 - 1))
  else Return PyNone.

Definition gamma_b64 (self : Risk) : res value :=
  d1 <- d1_expr (rk_S self) (rk_K self) (rk_T self) (rk_r self) (rk_sigma self) ;;
  Return (Float (norm_pdf_b64 d1
                 / (rk_S self * rk_sigma self * sqrt (rk_T self)))).

Definition vega_b64 (self : Risk) : res value :=
  d1 <- d1_expr (rk_S self) (rk_K self) (rk_T self) (rk_r self) (rk_sigma self) ;;
  Return (Float (rk_S self * norm_pdf_b64 d1 * sqrt (rk_T self) / 100)).

(** ** [strategy.py] *)

(** A method call on the pricing or risk object, as the constructor of
    [Leg] issues it; the state of a construction is the list of calls made
    so far, oldest first. *)
Inductive call : Type :=
| CallImpliedVolatility (self : BlackScholes) (sigma price : R)
| CallDelta (self : Risk)
| CallGamma (self : Risk)
| CallVega (self : Risk).

Definition invoke {A : Type} (c : call) (r : res A) : M (list call) A :=
  fun log => (r, log ++ [c]).

Record Leg : Type := mkLeg {
  leg_underlying : R;
  leg_strike : R;
  leg_maturity : R;
  leg_rate : R;
  leg_price : R;
  leg_sigma : R;
  leg_delta : value;
  leg_gamma : value;
  leg_vega : value;
  leg_option : string
}.

(** [Leg.__init__]; the object exists only if no call raised. *)
Definition Leg_init (underlying strike maturity rate price : R)
    (option : string) : M (list call) Leg :=
  let pricer := mkBlackScholes underlying strike maturity rate option in
  sigma <~ invoke (CallImpliedVolatility pricer 0.2 price)
                  (implied_volatility pricer 0.2 price) ;;
  let risks := mkRisk underlying strike maturity rate sigma option in
  d <~ invoke (CallDelta risks) (delta risks) ;;
  g <~ invoke (CallGamma risks) (gamma risks) ;;
  v <~ invoke (CallVega risks) (vega risks) ;;
  ret (mkLeg underlying strike maturity rate price sigma d g v option).

Record Strategy : Type := mkStrategy { legs : list Leg }.

(** The state a method of [Strategy] runs in: the receiver with its legs,
    and the calls made on pricing and risk objects. *)
Record world : Type := mkWorld {
  self : Strategy;
  log : list call
}.

(** [for leg in ...: acc += leg.<field>], started from [acc]. *)
Fixpoint accumulate (field : Leg -> value) (ls : list Leg) (acc : R)
    : M world R :=
  match ls with
  | [] => ret acc
  | leg :: rest =>
      acc' <~ lift (py_iadd acc (field leg)) ;;
      accumulate field rest acc'
  end.

Definition Strategy_delta : M world R :=
  ls <~ gets (fun w => legs (self w)) ;;
  accumulate leg_delta ls 0.

Definition Strategy_gamma : M world R :=
  ls <~ gets (fun w => legs (self w)) ;;
  accumulate leg_gamma ls 0.

Definition Strategy_vega : M world R :=
  ls <~ gets (fun w => legs (self w)) ;;
  accumulate leg_vega ls 0.

(** A leg is a [Leg] object: what some call of the constructor returned. *)
Definition built (l : Leg) : Prop :=
  exists (underlying strike maturity rate price : R) (option : string)
         (before after : list call),
    Leg_init underlying strike maturity rate price option before
    = (Return l, after).

(** The three cached Greeks of a leg are floats. *)
Definition cached_floats (l : Leg) : Prop :=
  (exists d : R, leg_delta l = Float d)
  /\ (exists g : R, leg_gamma l = Float g)
  /\ (exists v : R, leg_vega l = Float v).

(** The leg the specification describes for a call or a put: sigma is what
    the solver, started at 0.2, returns for the squared pricing error
    against the quoted price, and the Greeks are those of that sigma. *)
Definition expected_leg (underlying strike maturity rate price : R)
    (option : string) : Leg :=
  let pricer := mkBlackScholes underlying strike maturity rate option in
  let sigma := fmin (target_fn pricer price) 0.2 in
  mkLeg underlying strike maturity rate price sigma
    (Float (if String.eqb option "call"
            then Spec.call_delta norm_cdf underlying strike maturity rate sigma
            else Spec.put_delta norm_cdf underlying strike maturity rate sigma))
    (Float (Spec.gamma underlying strike maturity rate sigma))
    (Float (Spec.vega underlying strike maturity rate sigma))
    option.

(** The calls the specification describes for one construction. *)
Definition expected_calls (underlying strike maturity rate price : R)
    (option : string) : list call :=
  let pricer := mkBlackScholes underlying strike maturity rate option in
  let sigma := fmin (target_fn pricer price) 0.2 in
  let risks := mkRisk underlying strike maturity rate sigma option in
  [CallImpliedVolatility pricer 0.2 price;
   CallDelta risks; CallGamma risks; CallVega risks].

(** The premium of the specification for a call or a put. *)
Definition expected_premium (S K T r : R) (option : string) (sigma : R) : R :=
  if String.eqb option "call"
  then Spec.call_premium norm_cdf S K T r sigma
  else Spec.put_premium norm_cdf S K T r sigma.

(** ** The normal distribution function

    [norm_cdf] has the density as its derivative, is symmetric about 0,
    and takes its values strictly between 0 and 1.  The bounds come from
    the identity (cdf x - 1/2)^2 + I(x)/PI = 1/4, where I(x) is the
    integral over [0,1] of exp(-(1+t^2)*x^2/2)/(1+t^2): both sides have
    the same derivative in x and agree at 0. *)

Lemma norm_cdf_derivative (x : R) :
  derivable_pt_lim norm_cdf x (norm_pdf x).
Proof.
  assert (Hab : x - 1 <= x + 1) by lra.
  assert (C0 : forall y : R, x - 1 <= y <= x + 1 -> continuity_pt norm_pdf y)
    by (intros y _; apply norm_pdf_continuity).
  pose (P := primitive Hab (FTC_P1 Hab C0)).
  pose (c := 1 / 2 + RiemannInt (norm_pdf_integrable 0 (x - 1))).
  apply (derivable_pt_lim_locally_ext (fun y => P y + c) norm_cdf x
           (x - 1) (x + 1)).
  - lra.
  - intros z Hz. unfold P, c, norm_cdf, primitive.
    destruct (Rle_dec (x - 1) z) as [H1 | H1]; [| lra].
    destruct (Rle_dec z (x + 1)) as [H2 | H2]; [| lra].
    rewrite <- (RiemannInt_P26 (norm_pdf_integrable 0 (x - 1))
                  (FTC_P1 Hab C0 H1 H2) (norm_pdf_integrable 0 z)).
    ring.
  - replace (norm_pdf x) with (norm_pdf x + 0) by ring.
    apply (derivable_pt_lim_plus P (fun _ => c)).
    + apply RiemannInt_P27. lra.
    + apply derivable_pt_lim_const.
Qed.

Lemma norm_pdf_even (x : R) : norm_pdf (- x) = norm_pdf x.
Proof.
  unfold norm_pdf. replace ((- x) ^ 2) with (x ^ 2) by ring. reflexivity.
Qed.

Lemma norm_cdf_0 : norm_cdf 0 = 1 / 2.
Proof. unfold norm_cdf. rewrite RiemannInt_P9. ring. Qed.

Lemma norm_cdf_symmetric (x : R) : norm_cdf (- x) = 1 - norm_cdf x.
Proof.
  pose (h := fun y : R => norm_cdf y + norm_cdf (- y)).
  assert (Hd : forall y : R, derivable_pt_lim h y 0).
  { intros y. replace 0 with (norm_pdf y + - norm_pdf (- y))
      by (rewrite norm_pdf_even; ring).
    apply (derivable_pt_lim_plus norm_cdf (mirr_fct norm_cdf)).
    - apply norm_cdf_derivative.
    - apply derivable_pt_lim_mirr_fwd. rewrite Ropp_involutive.
      apply norm_cdf_derivative. }
  assert (pr : derivable h) by (intros y; exists 0; apply Hd).
  assert (Hc : constant h).
  { apply (null_derivative_1 h pr). intros y. apply derive_pt_eq_0, Hd. }
  specialize (Hc x 0). unfold h in Hc.
  rewrite Ropp_0, norm_cdf_0 in Hc. lra.
Qed.

(** The integral of a continuous derivative. *)
Lemma RiemannInt_derivative (f F : R -> R) (a b : R)
    (pr : Riemann_integrable f a b) :
  a <= b ->
  (forall x : R, continuity_pt f x) ->
  (forall x : R, derivable_pt_lim F x (f x)) ->
  RiemannInt pr = F b - F a.
Proof.
  intros Hab Hc HF.
  assert (C0 : forall x : R, a <= x <= b -> continuity_pt f x)
    by (intros x _; apply Hc).
  rewrite (RiemannInt_P20 Hab (FTC_P1 Hab C0) pr).
  assert (H1 := RiemannInt_P29 Hab C0).
  assert (H2 : antiderivative f F a b).
  { split; [| exact Hab]. intros x _.
    exists (exist _ (f x) (HF x)). reflexivity. }
  destruct (antiderivative_Ucte f _ _ a b H1 H2) as [c Hc'].
  rewrite (Hc' b), (Hc' a) by lra. ring.
Qed.

Lemma Rabs_le_between (a b : R) : Rabs a <= b -> - b <= a <= b.
Proof. unfold Rabs. destruct (Rcase_abs a); intros; lra. Qed.

(** Differentiation under the integral sign on [0,1], for an integrand
    with two derivatives in x, the second one bounded near [x0]. *)
Section UnderIntegral.

Variables g g1 g2 : R -> R -> R.
Hypothesis Dg : forall x t : R, derivable_pt_lim (fun y => g y t) x (g1 x t).
Hypothesis Dg1 : forall x t : R, derivable_pt_lim (fun y => g1 y t) x (g2 x t).
Variable Ig : forall x : R, Riemann_integrable (g x) 0 1.
Variable Ig1 : forall x : R, Riemann_integrable (g1 x) 0 1.
Variables x0 bnd : R.
Hypothesis bound :
  forall x t : R, Rabs (x - x0) <= 1 -> 0 <= t <= 1 -> Rabs (g2 x t) <= bnd.

Lemma between_abs (a b c : R) :
  Rmin a b <= c <= Rmax a b -> Rabs (c - a) <= Rabs (b - a).
Proof.
  unfold Rmin, Rmax. destruct (Rle_dec a b) as [H | H]; intros [H1 H2].
  - rewrite !Rabs_pos_eq by lra. lra.
  - rewrite !Rabs_left1 by lra. lra.
Qed.

Lemma second_order_bound (h t : R) :
  Rabs h <= 1 -> 0 <= t <= 1 ->
  Rabs (g (x0 + h) t - g x0 t - h * g1 x0 t) <= bnd * (Rabs h * Rabs h).
Proof.
  intros Hh Ht.
  pose (k := fun y : R => g y t - g1 x0 t * y).
  pose (k' := fun y : R => g1 y t - g1 x0 t * 1).
  assert (Dk : forall y : R, derivable_pt_lim k y (k' y)).
  { intros y. unfold k, k'.
    apply (derivable_pt_lim_minus (fun y => g y t) (mult_real_fct (g1 x0 t) id)).
    - apply Dg.
    - apply derivable_pt_lim_scal, derivable_pt_lim_id. }
  destruct (MVT_abs k k' x0 (x0 + h) (fun c _ => Dk c)) as (c & Hc & Hcb).
  destruct (MVT_abs (fun y => g1 y t) (fun y => g2 y t) x0 c
              (fun d _ => Dg1 d t)) as (d & Hd & Hdb).
  assert (Hch : Rabs (c - x0) <= Rabs h).
  { replace (Rabs h) with (Rabs (x0 + h - x0)) by (f_equal; ring).
    now apply between_abs. }
  assert (Hdh : Rabs (d - x0) <= Rabs h).
  { apply Rle_trans with (Rabs (c - x0)); [now apply between_abs | exact Hch]. }
  replace (g (x0 + h) t - g x0 t - h * g1 x0 t) with (k (x0 + h) - k x0)
    by (unfold k; ring).
  rewrite Hc. unfold k'. rewrite Rmult_1_r, Hd.
  replace (x0 + h - x0) with h by ring.
  assert (Hbnd : Rabs (g2 d t) <= bnd) by (apply bound; [lra | exact Ht]).
  assert (H0 := Rabs_pos (g2 d t)). assert (H1 := Rabs_pos (c - x0)).
  assert (H2 := Rabs_pos h).
  rewrite <- (Rmult_assoc bnd).
  apply Rmult_le_compat_r; [exact H2 |].
  apply Rmult_le_compat; assumption.
Qed.

Lemma derivable_pt_lim_RiemannInt :
  derivable_pt_lim (fun x => RiemannInt (Ig x)) x0 (RiemannInt (Ig1 x0)).
Proof.
  assert (Hbnd : 0 <= bnd).
  { apply Rle_trans with (Rabs (g2 x0 0)); [apply Rabs_pos |].
    apply bound; [| lra]. replace (x0 - x0) with 0 by ring.
    rewrite Rabs_R0. lra. }
  intros eps Heps.
  assert (Hd : 0 < Rmin 1 (eps / (bnd + 1))).
  { apply Rmin_pos; [lra |]. apply Rdiv_lt_0_compat; lra. }
  exists (mkposreal _ Hd). intros h Hh0 Hh. cbn in Hh.
  assert (Hh1 : Rabs h <= 1).
  { apply Rle_trans with (Rmin 1 (eps / (bnd + 1))); [lra | apply Rmin_l]. }
  assert (Hh2 : Rabs h < eps / (bnd + 1)).
  { apply Rlt_le_trans with (Rmin 1 (eps / (bnd + 1))); [exact Hh | apply Rmin_r]. }
  pose (D := RiemannInt_P10 (- h)
               (RiemannInt_P10 (-1) (Ig (x0 + h)) (Ig x0)) (Ig1 x0)).
  assert (HD : RiemannInt D
               = RiemannInt (Ig (x0 + h)) - RiemannInt (Ig x0)
                 - h * RiemannInt (Ig1 x0)).
  { unfold D.
    rewrite (RiemannInt_P13 (RiemannInt_P10 (-1) (Ig (x0 + h)) (Ig x0))
               (Ig1 x0)).
    rewrite (RiemannInt_P13 (Ig (x0 + h)) (Ig x0)). ring. }
  assert (Hb : - (bnd * (Rabs h * Rabs h)) * (1 - 0) <= RiemannInt D
               <= bnd * (Rabs h * Rabs h) * (1 - 0)).
  { apply RiemannInt_const_bound; [lra |]. intros t Ht.
    assert (H := second_order_bound h t Hh1 (conj (Rlt_le _ _ (proj1 Ht))
                                                 (Rlt_le _ _ (proj2 Ht)))).
    apply Rabs_le_between.
    replace (g (x0 + h) t + -1 * g x0 t + - h * g1 x0 t)
      with (g (x0 + h) t - g x0 t - h * g1 x0 t) by ring.
    exact H. }
  replace ((RiemannInt (Ig (x0 + h)) - RiemannInt (Ig x0)) / h
           - RiemannInt (Ig1 x0))
    with (RiemannInt D / h) by (rewrite HD; field; exact Hh0).
  unfold Rdiv. rewrite Rabs_mult, Rabs_inv.
  assert (Hhp : 0 < Rabs h) by now apply Rabs_pos_lt.
  apply Rle_lt_trans with (bnd * Rabs h).
  - apply Rmult_le_reg_r with (Rabs h); [exact Hhp |].
    rewrite Rmult_assoc, Rinv_l, Rmult_1_r by lra.
    apply Rabs_le. lra.
  - apply Rle_lt_trans with ((bnd + 1) * Rabs h); [nra |].
    apply Rmult_lt_reg_r with (/ (bnd + 1)); [apply Rinv_0_lt_compat; lra |].
    replace ((bnd + 1) * Rabs h * / (bnd + 1)) with (Rabs h) by (field; lra).
    exact Hh2.
Qed.

End UnderIntegral.

Lemma kern_derivative (a x : R) :
  derivable_pt_lim (kern a) x (- (a * x) * kern a x).
Proof.
  apply (derivable_pt_lim_ext (comp exp (mult_real_fct (- a / 2) Rsqr))).
  - intros z. unfold comp, mult_real_fct, Rsqr, kern. f_equal. field.
  - replace (- (a * x) * kern a x)
      with (exp (mult_real_fct (- a / 2) Rsqr x) * (- a / 2 * (2 * x))).
    + apply derivable_pt_lim_comp.
      * apply derivable_pt_lim_scal, derivable_pt_lim_Rsqr.
      * apply derivable_pt_lim_exp.
    + unfold mult_real_fct, Rsqr, kern.
      replace (- a / 2 * (x * x)) with (- (a * (x * x)) / 2) by field.
      field.
Qed.

Lemma exp_le (a b : R) : a <= b -> exp a <= exp b.
Proof.
  intros [Hlt | ->]; [left; now apply exp_increasing | right; reflexivity].
Qed.

Lemma kern_pos (a x : R) : 0 < kern a x.
Proof. apply exp_pos. Qed.

Lemma kern_le_1 (a x : R) : 0 <= a -> kern a x <= 1.
Proof.
  intros Ha. unfold kern. rewrite <- exp_0. apply exp_le.
  assert (0 <= a * (x * x)) by (apply Rmult_le_pos; nra). lra.
Qed.

Lemma slice_derivative (x t : R) :
  derivable_pt_lim (fun y => slice y t) x (slice_dx x t).
Proof.
  assert (Ha : 1 + t * t <> 0) by nra.
  apply (derivable_pt_lim_ext
           (mult_real_fct (/ (1 + t * t)) (kern (1 + t * t)))).
  - intros z. unfold mult_real_fct, slice. field. exact Ha.
  - replace (slice_dx x t)
      with (/ (1 + t * t) * (- ((1 + t * t) * x) * kern (1 + t * t) x))
      by (unfold slice_dx; field; exact Ha).
    apply derivable_pt_lim_scal, kern_derivative.
Qed.

Lemma slice_dx_derivative (x t : R) :
  derivable_pt_lim (fun y => slice_dx y t) x (slice_dxx x t).
Proof.
  apply (derivable_pt_lim_ext (mult_fct (opp_fct id) (kern (1 + t * t)))).
  - intros z. reflexivity.
  - replace (slice_dxx x t)
      with (- 1 * kern (1 + t * t) x
            + opp_fct id x * (- ((1 + t * t) * x) * kern (1 + t * t) x))
      by (unfold slice_dxx, opp_fct, id; ring).
    apply derivable_pt_lim_mult.
    + apply derivable_pt_lim_opp, derivable_pt_lim_id.
    + apply kern_derivative.
Qed.

Lemma slice_dxx_bound (x0 x t : R) :
  Rabs (x - x0) <= 1 -> 0 <= t <= 1 ->
  Rabs (slice_dxx x t) <= 2 * ((Rabs x0 + 1) * (Rabs x0 + 1)) + 1.
Proof.
  intros Hx Ht. unfold slice_dxx.
  assert (Hk := kern_pos (1 + t * t) x).
  assert (Hk1 : kern (1 + t * t) x <= 1) by (apply kern_le_1; nra).
  assert (Hxx : x * x <= (Rabs x0 + 1) * (Rabs x0 + 1)).
  { assert (Rabs x <= Rabs x0 + 1).
    { replace x with (x0 + (x - x0)) by ring.
      eapply Rle_trans; [apply Rabs_triang | lra]. }
    assert (H0 := Rabs_pos x).
    replace (x * x) with (Rabs x * Rabs x).
    - apply Rmult_le_compat; assumption.
    - unfold Rabs. destruct (Rcase_abs x); ring. }
  rewrite Rabs_mult, (Rabs_pos_eq (kern _ _)) by lra.
  assert (Ha : Rabs ((1 + t * t) * (x * x) - 1) <= 2 * (x * x) + 1).
  { apply Rabs_le. assert (0 <= x * x) by nra. assert (0 <= t * t <= 1) by nra.
    split; nra. }
  assert (H0 := Rabs_pos ((1 + t * t) * (x * x) - 1)).
  apply Rle_trans with (Rabs ((1 + t * t) * (x * x) - 1) * 1); [| lra].
  apply Rmult_le_compat_l; assumption.
Qed.

Lemma slice_continuity (x : R) : continuity (slice x).
Proof.
  unfold slice, kern. intros t.
  assert (Ha : 1 + t * t <> 0) by nra.
  reg.
Qed.

Lemma slice_dx_continuity (x : R) : continuity (slice_dx x).
Proof. unfold slice_dx, kern. reg. Qed.

Lemma slice_integrable (x : R) : Riemann_integrable (slice x) 0 1.
Proof.
  apply continuity_implies_RiemannInt; [lra |].
  intros t _. apply slice_continuity.
Qed.

Lemma slice_dx_integrable (x : R) : Riemann_integrable (slice_dx x) 0 1.
Proof.
  apply continuity_implies_RiemannInt; [lra |].
  intros t _. apply slice_dx_continuity.
Qed.

Lemma slice_integral_derivative (x : R) :
  derivable_pt_lim (fun y => RiemannInt (slice_integrable y)) x
    (RiemannInt (slice_dx_integrable x)).
Proof.
  apply (derivable_pt_lim_RiemannInt slice slice_dx slice_dxx
           slice_derivative slice_dx_derivative
           slice_integrable slice_dx_integrable x
           (2 * ((Rabs x + 1) * (Rabs x + 1)) + 1)).
  intros y t. apply slice_dxx_bound.
Qed.

Lemma scaled_pdf_continuity (x : R) : continuity (fun t => x * norm_pdf (x * t)).
Proof. unfold norm_pdf. assert (H := sqrt_2PI_pos). reg. Qed.

Lemma scaled_pdf_integrable (x : R) :
  Riemann_integrable (fun t => x * norm_pdf (x * t)) 0 1.
Proof.
  apply continuity_implies_RiemannInt; [lra |].
  intros t _. apply scaled_pdf_continuity.
Qed.

Lemma scaled_pdf_integral (x : R) :
  RiemannInt (scaled_pdf_integrable x) = norm_cdf x - 1 / 2.
Proof.
  rewrite (RiemannInt_derivative _ (fun t => norm_cdf (x * t))).
  - rewrite Rmult_1_r, Rmult_0_r, norm_cdf_0. reflexivity.
  - lra.
  - apply scaled_pdf_continuity.
  - intros t.
    replace (x * norm_pdf (x * t))
      with (norm_pdf (mult_real_fct x id t) * (x * 1))
      by (unfold mult_real_fct, id; ring).
    apply (derivable_pt_lim_comp (mult_real_fct x id) norm_cdf).
    + apply derivable_pt_lim_scal, derivable_pt_lim_id.
    + apply norm_cdf_derivative.
Qed.

Lemma slice_dx_integral (x : R) :
  RiemannInt (slice_dx_integrable x)
  = - (sqrt (2 * PI) * exp (- (x * x) / 2)) * (norm_cdf x - 1 / 2).
Proof.
  pose (c := - (sqrt (2 * PI) * exp (- (x * x) / 2))).
  pose (pr := RiemannInt_P10 c (RiemannInt_P14 0 1 0) (scaled_pdf_integrable x)).
  rewrite (RiemannInt_P18 (slice_dx_integrable x) pr).
  - unfold pr.
    rewrite (RiemannInt_P13 (RiemannInt_P14 0 1 0) (scaled_pdf_integrable x)).
    rewrite RiemannInt_P15, scaled_pdf_integral. unfold c. ring.
  - lra.
  - intros t _. unfold slice_dx, kern, fct_cte, c, norm_pdf.
    assert (Hs := sqrt_2PI_pos).
    replace (- ((1 + t * t) * (x * x)) / 2)
      with (- (x * x) / 2 + - (x * t) ^ 2 / 2) by field.
    rewrite exp_plus. field. lra.
Qed.

Lemma inv_1_sqr_continuity : continuity (fun t => / (1 + t ^ 2)).
Proof. intros t. assert (Ha : 1 + t ^ 2 <> 0) by nra. reg. Qed.

Lemma inv_1_sqr_integrable : Riemann_integrable (fun t => / (1 + t ^ 2)) 0 1.
Proof.
  apply continuity_implies_RiemannInt; [lra |].
  intros t _. apply inv_1_sqr_continuity.
Qed.

Lemma slice_integral_0 : RiemannInt (slice_integrable 0) = PI / 4.
Proof.
  rewrite (RiemannInt_P18 (slice_integrable 0) inv_1_sqr_integrable).
  - rewrite (RiemannInt_derivative _ atan).
    + rewrite atan_1, atan_0. ring.
    + lra.
    + apply inv_1_sqr_continuity.
    + apply derivable_pt_lim_atan.
  - lra.
  - intros t _. unfold slice, kern.
    replace (- ((1 + t * t) * (0 * 0)) / 2) with 0 by field.
    rewrite exp_0. assert (1 + t * t <> 0) by nra. field. nra.
Qed.

Lemma slice_integral_pos (x : R) : 0 < RiemannInt (slice_integrable x).
Proof.
  assert (Hp := exp_pos (- (x * x))).
  assert (Hb : exp (- (x * x)) / 2 * (1 - 0)
               <= RiemannInt (slice_integrable x) <= 1 * (1 - 0)).
  { apply (@RiemannInt_const_bound (slice x) 0 1 (exp (- (x * x)) / 2) 1
             (slice_integrable x)); [lra |].
    intros t Ht. unfold slice.
    assert (Hk := kern_pos (1 + t * t) x).
    assert (Hk1 : kern (1 + t * t) x <= 1) by (apply kern_le_1; nra).
    assert (Hlow : exp (- (x * x)) <= kern (1 + t * t) x).
    { unfold kern. apply exp_le.
      assert (0 <= (1 - t * t) * (x * x)) by (apply Rmult_le_pos; nra). lra. }
    assert (Ht2 : 1 <= 1 + t * t <= 2) by nra.
    split.
    + apply Rle_trans with (kern (1 + t * t) x / 2); [lra |].
      unfold Rdiv. apply Rmult_le_compat_l; [lra |].
      apply Rinv_le_contravar; lra.
    + apply Rle_trans with (kern (1 + t * t) x / 1); [| lra].
      unfold Rdiv. apply Rmult_le_compat_l; [lra |].
      apply Rinv_le_contravar; lra. }
  lra.
Qed.

Lemma cdf_sqr_identity (x : R) :
  (norm_cdf x - 1 / 2) * (norm_cdf x - 1 / 2)
  + RiemannInt (slice_integrable x) / PI = 1 / 4.
Proof.
  pose (J := fun y : R =>
               (norm_cdf y - 1 / 2) * (norm_cdf y - 1 / 2)
               + RiemannInt (slice_integrable y) / PI).
  assert (Hpi := PI_RGT_0). assert (Hs := sqrt_2PI_pos).
  assert (Hss : sqrt (2 * PI) * sqrt (2 * PI) = 2 * PI) by (apply sqrt_sqrt; lra).
  assert (HJ : forall y : R, derivable_pt_lim J y 0).
  { intros y.
    apply (derivable_pt_lim_ext
             (plus_fct (mult_fct (minus_fct norm_cdf (fct_cte (1 / 2)))
                                 (minus_fct norm_cdf (fct_cte (1 / 2))))
                       (mult_real_fct (/ PI)
                          (fun z => RiemannInt (slice_integrable z))))).
    - intros z. unfold J, plus_fct, mult_fct, minus_fct, fct_cte, mult_real_fct.
      field. lra.
    - replace 0
        with ((norm_pdf y - 0) * minus_fct norm_cdf (fct_cte (1 / 2)) y
              + minus_fct norm_cdf (fct_cte (1 / 2)) y * (norm_pdf y - 0)
              + / PI * RiemannInt (slice_dx_integrable y)).
      + apply derivable_pt_lim_plus.
        * apply derivable_pt_lim_mult;
            (apply derivable_pt_lim_minus;
             [apply norm_cdf_derivative | apply derivable_pt_lim_const]).
        * apply derivable_pt_lim_scal, slice_integral_derivative.
      + rewrite slice_dx_integral. unfold minus_fct, fct_cte, norm_pdf.
        replace (- y ^ 2 / 2) with (- (y * y) / 2) by field.
        set (e := exp (- (y * y) / 2)). set (P := norm_cdf y - 1 / 2).
        apply Rmult_eq_reg_l with (sqrt (2 * PI) * PI);
          [| apply Rmult_integral_contrapositive_currified; lra].
        rewrite Rmult_0_r.
        transitivity (e * P * (2 * PI - sqrt (2 * PI) * sqrt (2 * PI)));
          [field; lra | rewrite Hss; ring]. }
  assert (pr : derivable J) by (intros y; exists 0; apply HJ).
  assert (Hc : constant J).
  { apply (null_derivative_1 J pr). intros y. apply derive_pt_eq_0, HJ. }
  specialize (Hc x 0). unfold J in Hc.
  rewrite Hc, norm_cdf_0, slice_integral_0. field. lra.
Qed.

Lemma norm_cdf_range (x : R) : 0 < norm_cdf x < 1.
Proof.
  assert (Hq := cdf_sqr_identity x). assert (Hh := slice_integral_pos x).
  assert (Hpi := PI_RGT_0).
  assert (Hd : 0 < RiemannInt (slice_integrable x) / PI)
    by (apply Rdiv_lt_0_compat; assumption).
  split; nra.
Qed.

(** ** The shared [d1] expression *)

Lemma py_div_nonzero (a b : R) : b <> 0 -> py_div a b = Return (a / b).
Proof.
  intros Hb. unfold py_div.
  destruct (Req_dec_T b 0) as [E | _]; [contradiction | reflexivity].
Qed.

Lemma py_div_zero (a : R) : py_div a 0 = Raise ZeroDivisionError.
Proof.
  unfold py_div.
  destruct (Req_dec_T 0 0) as [_ | N]; [reflexivity | now elim N].
Qed.

Lemma d1_expr_spec (S K T r sigma : R) :
  K <> 0 -> d1_expr S K T r sigma = Return (Spec.d1 S K T r sigma).
Proof.
  intros HK. unfold d1_expr. rewrite (py_div_nonzero S K HK).
  cbn [bind]. unfold Spec.d1.
  replace (sigma ^ 2) with (sigma * sigma) by ring. reflexivity.
Qed.

Lemma norm_pdf_spec (x : R) : norm_pdf x = Spec.phi x.
Proof.
  unfold norm_pdf, Spec.phi.
  replace (- x ^ 2 / 2) with (- (x * x / 2)) by field. reflexivity.
Qed.

Lemma norm_pdf_pos (x : R) : 0 < norm_pdf x.
Proof.
  unfold norm_pdf. apply Rdiv_lt_0_compat.
  - apply exp_pos.
  - apply sqrt_lt_R0. apply Rmult_lt_0_compat; [lra | apply PI_RGT_0].
Qed.

(** ** [BlackScholes.black_scholes] *)

Lemma black_scholes_call (S K T r sigma : R) :
  K <> 0 ->
  black_scholes (mkBlackScholes S K T r "call") sigma
  = Return (Float (Spec.call_premium norm_cdf S K T r sigma)).
Proof.
  intros HK. unfold black_scholes. cbn [bs_S bs_K bs_T bs_r bs_option].
  rewrite (d1_expr_spec S K T r sigma HK). cbn [bind].
  change (String.eqb "call" "call") with true. cbv iota.
  unfold Spec.call_premium, Spec.d2.
  replace (- r * T) with (- (r * T)) by ring. reflexivity.
Qed.

Lemma black_scholes_put (S K T r sigma : R) :
  K <> 0 ->
  black_scholes (mkBlackScholes S K T r "put") sigma
  = Return (Float (Spec.put_premium norm_cdf S K T r sigma)).
Proof.
  intros HK. unfold black_scholes. cbn [bs_S bs_K bs_T bs_r bs_option].
  rewrite (d1_expr_spec S K T r sigma HK). cbn [bind].
  change (String.eqb "put" "call") with false.
  change (String.eqb "put" "put") with true. cbv iota.
  unfold Spec.put_premium, Spec.d2.
  replace (- r * T) with (- (r * T)) by ring. reflexivity.
Qed.

Lemma black_scholes_other (S K T r sigma : R) (kind : string) :
  K <> 0 -> String.eqb kind "call" = false -> String.eqb kind "put" = false ->
  black_scholes (mkBlackScholes S K T r kind) sigma = Return PyNone.
Proof.
  intros HK Hc Hp. unfold black_scholes. cbn [bs_S bs_K bs_T bs_r bs_option].
  rewrite (d1_expr_spec S K T r sigma HK). cbn [bind].
  rewrite Hc, Hp. reflexivity.
Qed.

(** ** [Risk.delta], [Risk.gamma], [Risk.vega] *)

Lemma delta_call (S K T r sigma : R) :
  K <> 0 ->
  delta (mkRisk S K T r sigma "call")
  = Return (Float (Spec.call_delta norm_cdf S K T r sigma)).
Proof.
  intros HK. unfold delta. cbn [rk_S rk_K rk_T rk_r rk_sigma rk_option].
  rewrite (d1_expr_spec S K T r sigma HK). reflexivity.
Qed.

Lemma delta_put (S K T r sigma : R) :
  K <> 0 ->
  delta (mkRisk S K T r sigma "put")
  = Return (Float (Spec.put_delta norm_cdf S K T r sigma)).
Proof.
  intros HK. unfold delta. cbn [rk_S rk_K rk_T rk_r rk_sigma rk_option].
  rewrite (d1_expr_spec S K T r sigma HK). reflexivity.
Qed.

Lemma delta_other (S K T r sigma : R) (kind : string) :
  K <> 0 -> String.eqb kind "call" = false -> String.eqb kind "put" = false ->
  delta (mkRisk S K T r sigma kind) = Return PyNone.
Proof.
  intros HK Hc Hp. unfold delta. cbn [rk_S rk_K rk_T rk_r rk_sigma rk_option].
  rewrite (d1_expr_spec S K T r sigma HK). cbn [bind].
  rewrite Hc, Hp. reflexivity.
Qed.

Lemma gamma_any_kind (S K T r sigma : R) (kind : string) :
  K <> 0 ->
  gamma (mkRisk S K T r sigma kind) = Return (Float (Spec.gamma S K T r sigma)).
Proof.
  intros HK. unfold gamma. cbn [rk_S rk_K rk_T rk_r rk_sigma rk_option].
  rewrite (d1_expr_spec S K T r sigma HK). cbn [bind].
  rewrite norm_pdf_spec. reflexivity.
Qed.

Lemma vega_any_kind (S K T r sigma : R) (kind : string) :
  K <> 0 ->
  vega (mkRisk S K T r sigma kind) = Return (Float (Spec.vega S K T r sigma)).
Proof.
  intros HK. unfold vega. cbn [rk_S rk_K rk_T rk_r rk_sigma rk_option].
  rewrite (d1_expr_spec S K T r sigma HK). cbn [bind].
  rewrite norm_pdf_spec. reflexivity.
Qed.

(** ** [Risk.delta], [Risk.gamma], [Risk.vega] on binary64 *)

Lemma b64_underflow_range (y : R) : 0 <= y -> 0 <= b64_underflow y <= y.
Proof.
  intros Hy. unfold b64_underflow.
  destruct (Rle_dec y (/ 2 ^ 1075)); lra.
Qed.

Lemma b64_to_one_range (y : R) : 0 <= y <= 1 -> y <= b64_to_one y <= 1.
Proof.
  intros Hy. unfold b64_to_one.
  destruct (Rle_dec (1 - / 2 ^ 54) y); lra.
Qed.

Lemma norm_cdf_b64_range (x : R) : 0 <= norm_cdf_b64 x <= 1.
Proof.
  unfold norm_cdf_b64.
  assert (Hr := norm_cdf_range x).
  assert (H1 : norm_cdf x <= b64_to_one (norm_cdf x) <= 1)
    by (apply b64_to_one_range; lra).
  assert (H2 := b64_underflow_range (b64_to_one (norm_cdf x))).
  lra.
Qed.

Lemma norm_pdf_b64_nonneg (x : R) : 0 <= norm_pdf_b64 x.
Proof.
  unfold norm_pdf_b64, np_exp_b64.
  apply b64_underflow_range.
  assert (He := exp_pos (- x ^ 2 / 2)).
  assert (Hu := b64_underflow_range (exp (- x ^ 2 / 2))).
  assert (Hs := sqrt_2PI_pos).
  apply Rmult_le_pos; [lra |].
  apply Rlt_le, Rinv_0_lt_compat, Hs.
Qed.

Lemma delta_b64_call (S K T r sigma : R) :
  K <> 0 ->
  delta_b64 (mkRisk S K T r sigma "call")
  = Return (Float (norm_cdf_b64 (Spec.d1 S K T r sigma))).
Proof.
  intros HK. unfold delta_b64. cbn [rk_S rk_K rk_T rk_r rk_sigma rk_option].
  rewrite (d1_expr_spec S K T r sigma HK). reflexivity.
Qed.

Lemma delta_b64_put (S K T r sigma : R) :
  K <> 0 ->
  delta_b64 (mkRisk S K T r sigma "put")
  = Return (Float (norm_cdf_b64 (Spec.d1 S K T r sigma) - 1)).
Proof.
  intros HK. unfold delta_b64. cbn [rk_S rk_K rk_T rk_r rk_sigma rk_option].
  rewrite (d1_expr_spec S K T r sigma HK). reflexivity.
Qed.

Lemma gamma_b64_any_kind (S K T r sigma : R) (kind : string) :
  K <> 0 ->
  gamma_b64 (mkRisk S K T r sigma kind)
  = Return (Float (norm_pdf_b64 (Spec.d1 S K T r sigma)
                   / (S * sigma * sqrt T))).
Proof.
  intros HK. unfold gamma_b64. cbn [rk_S rk_K rk_T rk_r rk_sigma rk_option].
  rewrite (d1_expr_spec S K T r sigma HK). reflexivity.
Qed.

Lemma vega_b64_any_kind (S K T r sigma : R) (kind : string) :
  K <> 0 ->
  vega_b64 (mkRisk S K T r sigma kind)
  = Return (Float (S * norm_pdf_b64 (Spec.d1 S K T r sigma) * sqrt T / 100)).
Proof.
  intros HK. unfold vega_b64. cbn [rk_S rk_K rk_T rk_r rk_sigma rk_option].
  rewrite (d1_expr_spec S K T r sigma HK). reflexivity.
Qed.

(** ** The premium as a function of sigma

    The derivative of the call and of the put premium in sigma is
    S*phi(d1)*sqrt(T). *)

Lemma d1_algebra (L c r s T : R) :
  T = c * c -> c <> 0 -> s <> 0 ->
  (L + (r + 0.5 * (s * s)) * T) / (s * c)
  = (L + r * T) / c * (1 / s) + 0.5 * c * s.
Proof. intros -> Hc Hs. field. split; assumption. Qed.

Lemma d1_derivative (S K T r s : R) :
  0 < T -> 0 < s ->
  derivable_pt_lim (Spec.d1 S K T r) s (sqrt T - Spec.d1 S K T r s / s).
Proof.
  intros HT Hs.
  assert (Hc : 0 < sqrt T) by now apply sqrt_lt_R0.
  assert (HcT : T = sqrt T * sqrt T) by (symmetry; apply sqrt_sqrt; lra).
  pose (A := (ln (S / K) + r * T) / sqrt T).
  pose (B := 0.5 * sqrt T).
  apply (derivable_pt_lim_locally_ext
           (plus_fct (mult_real_fct A (div_fct (fct_cte 1) id))
                     (mult_real_fct B id)) _ s (s / 2) (s + 1)); [lra | |].
  - intros z Hz.
    unfold plus_fct, mult_real_fct, div_fct, fct_cte, id, Spec.d1, A, B.
    symmetry. apply d1_algebra; [exact HcT | lra | lra].
  - replace (sqrt T - Spec.d1 S K T r s / s)
      with (A * ((0 * id s - 1 * fct_cte 1 s) / Rsqr (id s)) + B * 1).
    + apply derivable_pt_lim_plus.
      * apply derivable_pt_lim_scal. apply derivable_pt_lim_div.
        -- apply derivable_pt_lim_const.
        -- apply derivable_pt_lim_id.
        -- unfold id. lra.
      * apply derivable_pt_lim_scal. apply derivable_pt_lim_id.
    + unfold Spec.d1. rewrite (d1_algebra _ (sqrt T) r s T HcT); [| lra | lra].
      unfold id, fct_cte, Rsqr, A, B. replace 0.5 with (/ 2) by lra. field. split; lra.
Qed.

Lemma d2_derivative (S K T r s : R) :
  0 < T -> 0 < s ->
  derivable_pt_lim (Spec.d2 S K T r) s (- (Spec.d1 S K T r s / s)).
Proof.
  intros HT Hs.
  apply (derivable_pt_lim_ext
           (minus_fct (Spec.d1 S K T r) (mult_real_fct (sqrt T) id))).
  - intros z. unfold minus_fct, mult_real_fct, id, Spec.d2. ring.
  - replace (- (Spec.d1 S K T r s / s))
      with (sqrt T - Spec.d1 S K T r s / s - sqrt T * 1) by ring.
    apply derivable_pt_lim_minus.
    + now apply d1_derivative.
    + apply derivable_pt_lim_scal, derivable_pt_lim_id.
Qed.

Lemma phi_even (x : R) : Spec.phi (- x) = Spec.phi x.
Proof. unfold Spec.phi. replace (- x * - x) with (x * x) by ring. reflexivity. Qed.

Lemma density_identity (S K T r s : R) :
  0 < S -> 0 < K -> 0 < T -> 0 < s ->
  K * exp (- (r * T)) * Spec.phi (Spec.d2 S K T r s)
  = S * Spec.phi (Spec.d1 S K T r s).
Proof.
  intros HS HK HT Hs.
  assert (Hc : 0 < sqrt T) by now apply sqrt_lt_R0.
  assert (HcT : sqrt T * sqrt T = T) by (apply sqrt_sqrt; lra).
  assert (Hd : Spec.d1 S K T r s * (s * sqrt T)
               = ln (S / K) + (r + 0.5 * (s * s)) * T).
  { unfold Spec.d1. field. split; lra. }
  assert (He : - (Spec.d2 S K T r s * Spec.d2 S K T r s / 2)
               = - (Spec.d1 S K T r s * Spec.d1 S K T r s / 2)
                 + (ln (S / K) + r * T)).
  { unfold Spec.d2.
    replace ((Spec.d1 S K T r s - s * sqrt T) * (Spec.d1 S K T r s - s * sqrt T))
      with (Spec.d1 S K T r s * Spec.d1 S K T r s
            - 2 * (Spec.d1 S K T r s * (s * sqrt T))
            + s * s * (sqrt T * sqrt T)) by ring.
    rewrite Hd, HcT. lra. }
  unfold Spec.phi at 1. rewrite He, !exp_plus, exp_Ropp.
  rewrite exp_ln by (apply Rdiv_lt_0_compat; assumption).
  unfold Spec.phi.
  assert (H2pi : 0 < sqrt (2 * PI)).
  { apply sqrt_lt_R0. apply Rmult_lt_0_compat; [lra | apply PI_RGT_0]. }
  assert (HrT : 0 < exp (r * T)) by apply exp_pos.
  field. repeat split; lra.
Qed.

Lemma call_premium_derivative (S K T r s : R) :
  0 < S -> 0 < K -> 0 < T -> 0 < s ->
  derivable_pt_lim (Spec.call_premium norm_cdf S K T r) s
    (Spec.vega_per_unit_sigma S K T r s).
Proof.
  intros HS HK HT Hs.
  apply (derivable_pt_lim_ext
           (minus_fct (mult_real_fct S (comp norm_cdf (Spec.d1 S K T r)))
                      (mult_real_fct (K * exp (- (r * T)))
                                     (comp norm_cdf (Spec.d2 S K T r))))).
  - intros z. reflexivity.
  - replace (Spec.vega_per_unit_sigma S K T r s)
      with (S * (Spec.phi (Spec.d1 S K T r s)
                 * (sqrt T - Spec.d1 S K T r s / s))
            - K * exp (- (r * T))
              * (Spec.phi (Spec.d2 S K T r s) * - (Spec.d1 S K T r s / s))).
    + apply derivable_pt_lim_minus; apply derivable_pt_lim_scal;
        apply derivable_pt_lim_comp;
        solve [now apply d1_derivative | now apply d2_derivative
               | rewrite <- norm_pdf_spec; apply norm_cdf_derivative].
    + unfold Spec.vega_per_unit_sigma.
      assert (Hid := density_identity S K T r s HS HK HT Hs).
      rewrite <- !Rmult_assoc, Hid. ring.
Qed.

Lemma put_premium_derivative (S K T r s : R) :
  0 < S -> 0 < K -> 0 < T -> 0 < s ->
  derivable_pt_lim (Spec.put_premium norm_cdf S K T r) s
    (Spec.vega_per_unit_sigma S K T r s).
Proof.
  intros HS HK HT Hs.
  apply (derivable_pt_lim_ext
           (minus_fct (mult_real_fct (K * exp (- (r * T)))
                                     (comp norm_cdf (opp_fct (Spec.d2 S K T r))))
                      (mult_real_fct S (comp norm_cdf (opp_fct (Spec.d1 S K T r)))))).
  - intros z. reflexivity.
  - replace (Spec.vega_per_unit_sigma S K T r s)
      with (K * exp (- (r * T))
              * (Spec.phi (opp_fct (Spec.d2 S K T r) s)
                 * - - (Spec.d1 S K T r s / s))
            - S * (Spec.phi (opp_fct (Spec.d1 S K T r) s)
                   * - (sqrt T - Spec.d1 S K T r s / s))).
    + apply derivable_pt_lim_minus; apply derivable_pt_lim_scal;
        apply derivable_pt_lim_comp;
        solve [apply derivable_pt_lim_opp; now apply d1_derivative
               | apply derivable_pt_lim_opp; now apply d2_derivative
               | rewrite <- norm_pdf_spec; apply norm_cdf_derivative].
    + unfold Spec.vega_per_unit_sigma, opp_fct. rewrite !phi_even.
      assert (Hid := density_identity S K T r s HS HK HT Hs).
      rewrite <- !Rmult_assoc, Hid. ring.
Qed.
Lemma premium_fn_derivative (S K T r sigma : R) (kind : string) :
  0 < S -> 0 < K -> 0 < T -> 0 < sigma ->
  kind = "call"%string \/ kind = "put"%string ->
  derivable_pt_lim (premium_fn (mkBlackScholes S K T r kind)) sigma
    (Spec.vega_per_unit_sigma S K T r sigma).
Proof.
  intros HS HK HT Hsigma Hkind. assert (HK0 : K <> 0) by lra.
  destruct Hkind as [-> | ->].
  - apply (derivable_pt_lim_ext (Spec.call_premium norm_cdf S K T r)).
    + intros z. unfold premium_fn. now rewrite black_scholes_call.
    + now apply call_premium_derivative.
  - apply (derivable_pt_lim_ext (Spec.put_premium norm_cdf S K T r)).
    + intros z. unfold premium_fn. now rewrite black_scholes_put.
    + now apply put_premium_derivative.
Qed.

(** ** [BlackScholes.implied_volatility] and [Leg.__init__] *)

Lemma black_scholes_valid (S K T r sigma : R) (kind : string) :
  K <> 0 -> kind = "call"%string \/ kind = "put"%string ->
  black_scholes (mkBlackScholes S K T r kind) sigma
  = Return (Float (expected_premium S K T r kind sigma)).
Proof.
  intros HK [-> | ->]; unfold expected_premium.
  - now apply black_scholes_call.
  - now apply black_scholes_put.
Qed.

Lemma target_valid (S K T r price sigma : R) (kind : string) :
  K <> 0 -> kind = "call"%string \/ kind = "put"%string ->
  target (mkBlackScholes S K T r kind) price sigma
  = Return ((expected_premium S K T r kind sigma - price) ^ 2).
Proof.
  intros HK Hkind. unfold target.
  rewrite (black_scholes_valid S K T r sigma kind HK Hkind). reflexivity.
Qed.

Lemma implied_volatility_valid (S K T r x0 price : R) (kind : string) :
  K <> 0 -> kind = "call"%string \/ kind = "put"%string ->
  implied_volatility (mkBlackScholes S K T r kind) x0 price
  = Return (fmin (target_fn (mkBlackScholes S K T r kind) price) x0).
Proof.
  intros HK Hkind. unfold implied_volatility.
  rewrite (target_valid S K T r price x0 kind HK Hkind). reflexivity.
Qed.

Lemma delta_valid (S K T r sigma : R) (kind : string) :
  K <> 0 -> kind = "call"%string \/ kind = "put"%string ->
  delta (mkRisk S K T r sigma kind)
  = Return (Float (if String.eqb kind "call"
                   then Spec.call_delta norm_cdf S K T r sigma
                   else Spec.put_delta norm_cdf S K T r sigma)).
Proof.
  intros HK [-> | ->].
  - now apply delta_call.
  - now apply delta_put.
Qed.

Lemma Leg_init_valid (u k m r p : R) (kind : string) (before : list call) :
  k <> 0 -> kind = "call"%string \/ kind = "put"%string ->
  Leg_init u k m r p kind before
  = (Return (expected_leg u k m r p kind),
     before ++ expected_calls u k m r p kind).
Proof.
  intros Hk Hkind. unfold Leg_init, mbind, invoke, ret.
  rewrite (implied_volatility_valid u k m r 0.2 p kind Hk Hkind).
  rewrite (delta_valid u k m r _ kind Hk Hkind).
  rewrite (gamma_any_kind u k m r _ kind Hk).
  rewrite (vega_any_kind u k m r _ kind Hk).
  unfold expected_leg, expected_calls.
  rewrite <- !app_assoc. reflexivity.
Qed.

(** A construction that returns a leg was given a nonzero strike and one
    of the two option kinds. *)
Lemma Leg_init_returns (u k m r p : R) (kind : string)
    (before after : list call) (l : Leg) :
  Leg_init u k m r p kind before = (Return l, after) ->
  k <> 0 /\ (kind = "call"%string \/ kind = "put"%string).
Proof.
  intros H. destruct (Req_dec_T k 0) as [E | N].
  - exfalso. subst k. revert H.
    unfold Leg_init, mbind, invoke, implied_volatility, target,
      black_scholes, d1_expr.
    cbn [bs_S bs_K bs_T bs_r bs_option]. rewrite py_div_zero.
    cbn [bind]. discriminate.
  - split; [exact N |].
    destruct (String.eqb kind "call") eqn:Ec.
    + left. now apply String.eqb_eq.
    + destruct (String.eqb kind "put") eqn:Ep.
      * right. now apply String.eqb_eq.
      * exfalso. revert H.
        unfold Leg_init, mbind, invoke, implied_volatility, target.
        rewrite (black_scholes_other u k m r 0.2 kind N Ec Ep).
        cbn [bind py_sub]. discriminate.
Qed.

Lemma built_expected (l : Leg) :
  built l ->
  exists (u k m r p : R) (kind : string), l = expected_leg u k m r p kind.
Proof.
  intros (u & k & m & r & p & kind & before & after & H).
  destruct (Leg_init_returns _ _ _ _ _ _ _ _ _ H) as [Hk Hkind].
  rewrite (Leg_init_valid u k m r p kind before Hk Hkind) in H.
  exists u, k, m, r, p, kind. now inversion H.
Qed.

(** ** The methods of [Strategy] *)

Lemma built_cached_floats (l : Leg) : built l -> cached_floats l.
Proof.
  intros Hb. destruct (built_expected l Hb) as (u & k & m & r & p & kind & ->).
  unfold cached_floats, expected_leg. cbn.
  repeat split; eexists; reflexivity.
Qed.

Lemma accumulate_floats (field : Leg -> value) (ls : list Leg) :
  Forall (fun l => exists x : R, field l = Float x) ls ->
  forall (acc : R) (w : world),
    accumulate field ls acc w
    = (Return (acc + total (map (fun l => as_float (field l)) ls)), w).
Proof.
  induction 1 as [| l ls [x Hx] _ IH]; intros acc w.
  - cbn. unfold ret. now rewrite Rplus_0_r.
  - cbn [accumulate map total fold_right]. unfold mbind, lift.
    rewrite Hx. cbn [py_iadd as_float].
    rewrite IH. unfold total. now rewrite Rplus_assoc.
Qed.

Lemma accumulate_state (field : Leg -> value) (ls : list Leg) :
  forall (acc : R) (w : world), snd (accumulate field ls acc w) = w.
Proof.
  induction ls as [| l ls IH]; intros acc w.
  - reflexivity.
  - cbn [accumulate]. unfold mbind, lift.
    destruct (py_iadd acc (field l)) as [a | e]; [apply IH | reflexivity].
Qed.

(** ** Claims on pricing and on the Greeks *)

(** C3.  For S > 0, K > 0, T > 0, any r and sigma > 0, [black_scholes]
    returns S*Phi(d1) - K*exp(-r*T)*Phi(d2) for a call and
    K*exp(-r*T)*Phi(-d2) - S*Phi(-d1) for a put, with
    d1 = (ln(S/K) + (r + 0.5*sigma^2)*T) / (sigma*sqrt T) and
    d2 = d1 - sigma*sqrt T. *)
Theorem black_scholes_computes_premium (S K T r sigma : R) :
  0 < S -> 0 < K -> 0 < T -> 0 < sigma ->
  black_scholes (mkBlackScholes S K T r "call") sigma
  = Return (Float (Spec.call_premium norm_cdf S K T r sigma))
  /\ black_scholes (mkBlackScholes S K T r "put") sigma
     = Return (Float (Spec.put_premium norm_cdf S K T r sigma)).
Proof.
  intros _ HK _ _. assert (K <> 0) by lra.
  split; [now apply black_scholes_call | now apply black_scholes_put].
Qed.

(** C1.  Put-call parity: for S > 0, K > 0, T > 0 and sigma > 0, the
    call price minus the put price at the same (S, K, T, r, sigma) is
    S - K*exp(-r*T); the two sides being equal over the reals, they differ
    by less than the tolerance 1e-6. *)
Theorem put_call_parity (S K T r sigma : R) :
  0 < S -> 0 < K -> 0 < T -> 0 < sigma ->
  exists c p : R,
    black_scholes (mkBlackScholes S K T r "call") sigma = Return (Float c)
    /\ black_scholes (mkBlackScholes S K T r "put") sigma = Return (Float p)
    /\ c - p = S - K * exp (- r * T)
    /\ Rabs ((c - p) - (S - K * exp (- r * T))) < 1e-6.
Proof.
  intros _ HK _ _. assert (HK0 : K <> 0) by lra.
  exists (Spec.call_premium norm_cdf S K T r sigma),
         (Spec.put_premium norm_cdf S K T r sigma).
  assert (Heq : Spec.call_premium norm_cdf S K T r sigma
                - Spec.put_premium norm_cdf S K T r sigma
                = S - K * exp (- r * T)).
  { unfold Spec.call_premium, Spec.put_premium.
    rewrite (norm_cdf_symmetric (Spec.d1 S K T r sigma)),
            (norm_cdf_symmetric (Spec.d2 S K T r sigma)).
    replace (- r * T) with (- (r * T)) by ring. ring. }
  repeat split.
  - now apply black_scholes_call.
  - now apply black_scholes_put.
  - exact Heq.
  - rewrite Heq. unfold Rminus. rewrite Rplus_opp_r, Rabs_R0. lra.
Qed.

(** C4.  For S > 0, K > 0, T > 0, any r and sigma > 0, [delta] returns
    Phi(d1) for a call and Phi(d1) - 1 for a put, d1 being the d1 of the
    pricing formula. *)
Theorem delta_computes_formula (S K T r sigma : R) :
  0 < S -> 0 < K -> 0 < T -> 0 < sigma ->
  delta (mkRisk S K T r sigma "call")
  = Return (Float (norm_cdf (Spec.d1 S K T r sigma)))
  /\ delta (mkRisk S K T r sigma "put")
     = Return (Float (norm_cdf (Spec.d1 S K T r sigma) - 1))
  /\ d1_expr S K T r sigma = Return (Spec.d1 S K T r sigma).
Proof.
  intros _ HK _ _. assert (K <> 0) by lra.
  repeat split;
    [now apply delta_call | now apply delta_put | now apply d1_expr_spec].
Qed.

(** C5.  For S > 0, K > 0, T > 0, any r and sigma > 0, [vega] returns
    S*phi(d1)*sqrt(T)/100 whatever the option kind; and S*phi(d1)*sqrt(T)
    is the sensitivity of the premium per unit of sigma: it is the
    derivative in sigma of what [black_scholes] returns, for a call and
    for a put. *)
Theorem vega_computes_formula (S K T r sigma : R) :
  0 < S -> 0 < K -> 0 < T -> 0 < sigma ->
  (forall kind : string,
     vega (mkRisk S K T r sigma kind)
     = Return (Float (S * Spec.phi (Spec.d1 S K T r sigma) * sqrt T / 100)))
  /\ (forall kind : string, kind = "call"%string \/ kind = "put"%string ->
      derivable_pt_lim (premium_fn (mkBlackScholes S K T r kind)) sigma
        (S * Spec.phi (Spec.d1 S K T r sigma) * sqrt T)).
Proof.
  intros HS HK HT Hsigma. assert (K <> 0) by lra.
  split.
  - intros kind. now apply vega_any_kind.
  - intros kind Hkind. now apply premium_fn_derivative.
Qed.

(** C6.  For S > 0, K > 0, T > 0, any r and sigma > 0, [gamma] returns
    phi(d1)/(S*sigma*sqrt T), and the same result for every option kind,
    call and put in particular. *)
Theorem gamma_computes_formula_any_kind (S K T r sigma : R) :
  0 < S -> 0 < K -> 0 < T -> 0 < sigma ->
  (forall kind : string,
     gamma (mkRisk S K T r sigma kind)
     = Return (Float (Spec.phi (Spec.d1 S K T r sigma) / (S * sigma * sqrt T))))
  /\ gamma (mkRisk S K T r sigma "call") = gamma (mkRisk S K T r sigma "put").
Proof.
  intros _ HK _ _. assert (HK0 : K <> 0) by lra.
  split.
  - intros kind. now apply gamma_any_kind.
  - now rewrite !gamma_any_kind.
Qed.

(** C9.  For S > 0, K > 0, T > 0, any r and sigma > 0, the call delta
    minus the put delta at the same parameters is exactly 1. *)
Theorem call_delta_minus_put_delta (S K T r sigma : R) :
  0 < S -> 0 < K -> 0 < T -> 0 < sigma ->
  exists c p : R,
    delta (mkRisk S K T r sigma "call") = Return (Float c)
    /\ delta (mkRisk S K T r sigma "put") = Return (Float p)
    /\ c - p = 1.
Proof.
  intros _ HK _ _. assert (HK0 : K <> 0) by lra.
  exists (Spec.call_delta norm_cdf S K T r sigma),
         (Spec.put_delta norm_cdf S K T r sigma).
  repeat split.
  - now apply delta_call.
  - now apply delta_put.
  - unfold Spec.call_delta, Spec.put_delta. ring.
Qed.

(** C10.  For S > 0, K > 0, T > 0, any r and sigma > 0, [gamma] and
    [vega] return numbers that are positive or zero for every option kind,
    the call delta lies in the closed interval from 0 to 1 and the put
    delta in the closed interval from -1 to 0.  The methods are read on
    binary64, where the ends are reached. *)
Theorem greeks_signs_binary64 (S K T r sigma : R) :
  0 < S -> 0 < K -> 0 < T -> 0 < sigma ->
  (forall kind : string, exists g : R,
     gamma_b64 (mkRisk S K T r sigma kind) = Return (Float g) /\ 0 <= g)
  /\ (forall kind : string, exists v : R,
        vega_b64 (mkRisk S K T r sigma kind) = Return (Float v) /\ 0 <= v)
  /\ (exists c : R,
        delta_b64 (mkRisk S K T r sigma "call") = Return (Float c)
        /\ 0 <= c <= 1)
  /\ (exists p : R,
        delta_b64 (mkRisk S K T r sigma "put") = Return (Float p)
        /\ -1 <= p <= 0).
Proof.
  intros HS HK HT Hsigma. assert (HK0 : K <> 0) by lra.
  assert (HsT : 0 < sqrt T) by now apply sqrt_lt_R0.
  assert (Hphi := norm_pdf_b64_nonneg (Spec.d1 S K T r sigma)).
  assert (Hr := norm_cdf_b64_range (Spec.d1 S K T r sigma)).
  repeat split.
  - intros kind. eexists. split; [now apply gamma_b64_any_kind |].
    apply Rmult_le_pos; [exact Hphi |].
    apply Rlt_le, Rinv_0_lt_compat.
    apply Rmult_lt_0_compat; [apply Rmult_lt_0_compat |]; assumption.
  - intros kind. eexists. split; [now apply vega_b64_any_kind |].
    apply Rmult_le_pos; [| lra].
    apply Rmult_le_pos; [apply Rmult_le_pos |]; lra.
  - eexists. split; [now apply delta_b64_call |]. exact Hr.
  - eexists. split; [now apply delta_b64_put |]. lra.
Qed.

(** C2.  With an option kind other than call and put, here "straddle" at
    S = 100, K = 100, T = 1, r = 0.05, sigma = 0.2, neither
    [black_scholes] nor [delta] raises: both return [None].  The caller
    in the same file does not expect it: constructing a leg of that kind
    ends in the [TypeError] of [None - price], inside the first call. *)
Theorem unknown_kind_returns_None :
  black_scholes (mkBlackScholes 100 100 1 0.05 "straddle") 0.2 = Return PyNone
  /\ delta (mkRisk 100 100 1 0.05 0.2 "straddle") = Return PyNone
  /\ Leg_init 100 100 1 0.05 10 "straddle" []
     = (Raise TypeError,
        [CallImpliedVolatility (mkBlackScholes 100 100 1 0.05 "straddle")
           0.2 10]).
Proof.
  assert (H : 100 <> 0) by lra.
  repeat split.
  - apply black_scholes_other; solve [exact H | reflexivity].
  - apply delta_other; solve [exact H | reflexivity].
  - unfold Leg_init, mbind, invoke, implied_volatility, target.
    rewrite black_scholes_other by solve [exact H | reflexivity].
    reflexivity.
Qed.

(** ** Claims on legs and strategies *)

(** C8.  For a valid construction input (underlying, strike, maturity
    positive, option kind call or put), the constructor of [Leg] first
    calls [implied_volatility] with start point 0.2 and the quoted price,
    the solver minimising the squared difference between the model price
    and the quoted price, then calls [delta], [gamma] and [vega] on a risk
    object holding the recovered sigma, each once, and stores the four
    results; no method of [Strategy] changes a leg or makes a further
    call. *)
Theorem Leg_init_solves_then_computes (u k m r p : R) (kind : string)
    (before : list call) :
  0 < u -> 0 < k -> 0 < m -> kind = "call"%string \/ kind = "put"%string ->
  exists sigma d g v : R,
    let pricer := mkBlackScholes u k m r kind in
    let risks := mkRisk u k m r sigma kind in
    Leg_init u k m r p kind before
    = (Return (mkLeg u k m r p sigma (Float d) (Float g) (Float v) kind),
       before ++ [CallImpliedVolatility pricer 0.2 p;
                  CallDelta risks; CallGamma risks; CallVega risks])
    /\ implied_volatility pricer 0.2 p = Return sigma
    /\ sigma = fmin (target_fn pricer p) 0.2
    /\ (forall s : R, exists x : R,
          black_scholes pricer s = Return (Float x)
          /\ target_fn pricer p s = (x - p) ^ 2)
    /\ delta risks = Return (Float d)
    /\ gamma risks = Return (Float g)
    /\ vega risks = Return (Float v)
    /\ (forall w : world,
          snd (Strategy_delta w) = w
          /\ snd (Strategy_gamma w) = w
          /\ snd (Strategy_vega w) = w).
Proof.
  intros _ Hk _ Hkind. assert (Hk0 : k <> 0) by lra.
  set (sigma := fmin (target_fn (mkBlackScholes u k m r kind) p) 0.2).
  exists sigma,
    (if String.eqb kind "call"
     then Spec.call_delta norm_cdf u k m r sigma
     else Spec.put_delta norm_cdf u k m r sigma),
    (Spec.gamma u k m r sigma), (Spec.vega u k m r sigma).
  cbv zeta. repeat split.
  - now rewrite (Leg_init_valid u k m r p kind before Hk0 Hkind).
  - now apply implied_volatility_valid.
  - intros s. exists (expected_premium u k m r kind s). split.
    + now apply black_scholes_valid.
    + unfold target_fn. now rewrite (target_valid u k m r p s kind Hk0 Hkind).
  - now apply delta_valid.
  - now apply gamma_any_kind.
  - now apply vega_any_kind.
  - unfold Strategy_delta, mbind, gets. apply accumulate_state.
  - unfold Strategy_gamma, mbind, gets. apply accumulate_state.
  - unfold Strategy_vega, mbind, gets. apply accumulate_state.
Qed.

(** C7.  For every sequence of legs, the empty one included,
    [Strategy.delta], [Strategy.gamma] and [Strategy.vega] return the sum
    of the cached field over the legs, and leave the strategy, its legs
    and the list of calls on pricing and risk objects as they were; on
    the empty strategy the three return 0. *)
Theorem Strategy_sums_cached_fields (ls : list Leg) (calls : list call) :
  Forall built ls ->
  let w := mkWorld (mkStrategy ls) calls in
  Strategy_delta w
  = (Return (total (map (fun l => as_float (leg_delta l)) ls)), w)
  /\ Strategy_gamma w
     = (Return (total (map (fun l => as_float (leg_gamma l)) ls)), w)
  /\ Strategy_vega w
     = (Return (total (map (fun l => as_float (leg_vega l)) ls)), w)
  /\ (ls = [] ->
      Strategy_delta w = (Return 0, w)
      /\ Strategy_gamma w = (Return 0, w)
      /\ Strategy_vega w = (Return 0, w)).
Proof.
  intros Hb w.
  assert (Hd : Forall (fun l => exists x : R, leg_delta l = Float x) ls).
  { eapply Forall_impl; [| exact Hb]. intros l H.
    now destruct (built_cached_floats l H) as (? & _ & _). }
  assert (Hg : Forall (fun l => exists x : R, leg_gamma l = Float x) ls).
  { eapply Forall_impl; [| exact Hb]. intros l H.
    now destruct (built_cached_floats l H) as (_ & ? & _). }
  assert (Hv : Forall (fun l => exists x : R, leg_vega l = Float x) ls).
  { eapply Forall_impl; [| exact Hb]. intros l H.
    now destruct (built_cached_floats l H) as (_ & _ & ?). }
  assert (Sd := accumulate_floats leg_delta ls Hd 0 w).
  assert (Sg := accumulate_floats leg_gamma ls Hg 0 w).
  assert (Sv := accumulate_floats leg_vega ls Hv 0 w).
  rewrite Rplus_0_l in Sd, Sg, Sv.
  repeat split; try assumption; subst ls; assumption.
Qed.

(** ** Further properties: errors *)

Lemma d1_expr_zero_strike (S T r sigma : R) :
  d1_expr S 0 T r sigma = Raise ZeroDivisionError.
Proof. unfold d1_expr. now rewrite py_div_zero. Qed.

(** X1.  With a strike of 0, [black_scholes], [delta], [gamma], [vega] and
    [implied_volatility] raise [ZeroDivisionError], whatever the option
    kind and the other numbers: the division S / K comes before the test
    on the kind and before the search. *)
Theorem zero_strike_raises (S T r sigma price : R) (kind : string) :
  black_scholes (mkBlackScholes S 0 T r kind) sigma = Raise ZeroDivisionError
  /\ delta (mkRisk S 0 T r sigma kind) = Raise ZeroDivisionError
  /\ gamma (mkRisk S 0 T r sigma kind) = Raise ZeroDivisionError
  /\ vega (mkRisk S 0 T r sigma kind) = Raise ZeroDivisionError
  /\ implied_volatility (mkBlackScholes S 0 T r kind) sigma price
     = Raise ZeroDivisionError.
Proof.
  unfold implied_volatility, target, black_scholes, delta, gamma, vega.
  cbn [bs_S bs_K bs_T bs_r bs_option rk_S rk_K rk_T rk_r rk_sigma rk_option].
  rewrite !d1_expr_zero_strike. repeat split; reflexivity.
Qed.

Lemma kind_eqb_false (kind other : string) :
  kind <> other -> String.eqb kind other = false.
Proof. intros H. now apply String.eqb_neq. Qed.


(** X3.  The constructor of [Leg] returns a leg exactly when the strike is
    nonzero and the option kind is call or put.  Otherwise it raises inside
    its first call, [implied_volatility]: [ZeroDivisionError] for a zero
    strike, [TypeError] for another kind; [delta], [gamma] and [vega] are
    then never called. *)
Theorem Leg_init_returns_iff (u k m r p : R) (kind : string)
    (before : list call) :
  ((exists (l : Leg) (after : list call),
      Leg_init u k m r p kind before = (Return l, after))
   <-> k <> 0 /\ (kind = "call"%string \/ kind = "put"%string))
  /\ (k = 0 ->
      Leg_init u k m r p kind before
      = (Raise ZeroDivisionError,
         before ++ [CallImpliedVolatility (mkBlackScholes u k m r kind)
                      0.2 p]))
  /\ (k <> 0 -> kind <> "call"%string -> kind <> "put"%string ->
      Leg_init u k m r p kind before
      = (Raise TypeError,
         before ++ [CallImpliedVolatility (mkBlackScholes u k m r kind)
                      0.2 p])).
Proof.
  split; [split | split].
  - intros (l & after & H). exact (Leg_init_returns _ _ _ _ _ _ _ _ _ H).
  - intros [Hk Hkind]. eexists. eexists. now apply Leg_init_valid.
  - intros ->. unfold Leg_init, mbind, invoke, implied_volatility, target,
      black_scholes.
    cbn [bs_S bs_K bs_T bs_r bs_option]. now rewrite d1_expr_zero_strike.
  - intros Hk Hc Hp. unfold Leg_init, mbind, invoke, implied_volatility, target.
    rewrite (black_scholes_other u k m r 0.2 kind Hk
               (kind_eqb_false _ _ Hc) (kind_eqb_false _ _ Hp)).
    reflexivity.
Qed.

(** ** Further properties: the objective of the search *)


Lemma premium_fn_valid (S K T r sigma : R) (kind : string) :
  K <> 0 -> kind = "call"%string \/ kind = "put"%string ->
  premium_fn (mkBlackScholes S K T r kind) sigma
  = expected_premium S K T r kind sigma.
Proof.
  intros HK Hkind. unfold premium_fn.
  now rewrite (black_scholes_valid S K T r sigma kind HK Hkind).
Qed.


(** ** Further properties: the Greeks of one contract *)

(** X5.  For S > 0, K > 0, T > 0 and sigma > 0, what [vega] returns is
    what [gamma] returns times S^2 * sigma * T / 100, for every option
    kind. *)
Theorem vega_from_gamma (S K T r sigma : R) (kind : string) :
  0 < S -> 0 < K -> 0 < T -> 0 < sigma ->
  exists g v : R,
    gamma (mkRisk S K T r sigma kind) = Return (Float g)
    /\ vega (mkRisk S K T r sigma kind) = Return (Float v)
    /\ v = g * S ^ 2 * sigma * T / 100.
Proof.
  intros HS HK HT Hsigma. assert (HK0 : K <> 0) by lra.
  exists (Spec.gamma S K T r sigma), (Spec.vega S K T r sigma).
  repeat split.
  - now apply gamma_any_kind.
  - now apply vega_any_kind.
  - unfold Spec.gamma, Spec.vega, Spec.vega_per_unit_sigma.
    assert (Hc : 0 < sqrt T) by now apply sqrt_lt_R0.
    assert (HcT : sqrt T * sqrt T = T) by (apply sqrt_sqrt; lra).
    set (f := Spec.phi (Spec.d1 S K T r sigma)).
    replace (f / (S * sigma * sqrt T) * S ^ 2 * sigma * T / 100)
      with (f / (S * sigma * sqrt T) * S ^ 2 * sigma * (sqrt T * sqrt T) / 100)
      by (now rewrite HcT).
    field. repeat split; lra.
Qed.

Lemma d1_derivative_spot (S K T r sigma : R) :
  0 < S -> 0 < K -> 0 < T -> 0 < sigma ->
  derivable_pt_lim (fun s => Spec.d1 s K T r sigma) S
    (/ (S * sigma * sqrt T)).
Proof.
  intros HS HK HT Hsigma.
  assert (Hc : 0 < sqrt T) by now apply sqrt_lt_R0.
  pose (c0 := (r + 0.5 * (sigma * sigma)) * T).
  apply (derivable_pt_lim_ext
           (mult_real_fct (/ (sigma * sqrt T))
              (plus_fct (comp ln (mult_real_fct (/ K) id)) (fct_cte c0)))).
  - intros z. unfold mult_real_fct, plus_fct, comp, fct_cte, id, Spec.d1, c0.
    replace (/ K * z) with (z / K) by (unfold Rdiv; ring).
    unfold Rdiv. ring.
  - replace (/ (S * sigma * sqrt T))
      with (/ (sigma * sqrt T)
            * (/ (mult_real_fct (/ K) id S) * (/ K * 1) + 0))
      by (unfold mult_real_fct, id; field; repeat split; lra).
    apply derivable_pt_lim_scal. apply derivable_pt_lim_plus.
    + apply derivable_pt_lim_comp.
      * apply derivable_pt_lim_scal, derivable_pt_lim_id.
      * apply derivable_pt_lim_ln. unfold mult_real_fct, id.
        apply Rmult_lt_0_compat; [now apply Rinv_0_lt_compat | exact HS].
    + apply derivable_pt_lim_const.
Qed.

Lemma d2_derivative_spot (S K T r sigma : R) :
  0 < S -> 0 < K -> 0 < T -> 0 < sigma ->
  derivable_pt_lim (fun s => Spec.d2 s K T r sigma) S
    (/ (S * sigma * sqrt T)).
Proof.
  intros HS HK HT Hsigma.
  apply (derivable_pt_lim_ext
           (minus_fct (fun s => Spec.d1 s K T r sigma)
                      (fct_cte (sigma * sqrt T)))).
  - intros z. reflexivity.
  - replace (/ (S * sigma * sqrt T)) with (/ (S * sigma * sqrt T) - 0) by ring.
    apply derivable_pt_lim_minus.
    + now apply d1_derivative_spot.
    + apply derivable_pt_lim_const.
Qed.

Lemma call_premium_derivative_spot (S K T r sigma : R) :
  0 < S -> 0 < K -> 0 < T -> 0 < sigma ->
  derivable_pt_lim (fun s => Spec.call_premium norm_cdf s K T r sigma) S
    (Spec.call_delta norm_cdf S K T r sigma).
Proof.
  intros HS HK HT Hsigma.
  apply (derivable_pt_lim_ext
           (minus_fct
              (mult_fct id (comp norm_cdf (fun s => Spec.d1 s K T r sigma)))
              (mult_real_fct (K * exp (- (r * T)))
                 (comp norm_cdf (fun s => Spec.d2 s K T r sigma))))).
  - intros z. reflexivity.
  - replace (Spec.call_delta norm_cdf S K T r sigma)
      with (1 * comp norm_cdf (fun s => Spec.d1 s K T r sigma) S
            + id S * (Spec.phi (Spec.d1 S K T r sigma)
                      * / (S * sigma * sqrt T))
            - K * exp (- (r * T))
              * (Spec.phi (Spec.d2 S K T r sigma) * / (S * sigma * sqrt T))).
    + apply derivable_pt_lim_minus.
      * apply derivable_pt_lim_mult; [apply derivable_pt_lim_id |].
        apply derivable_pt_lim_comp; [now apply d1_derivative_spot |].
        rewrite <- norm_pdf_spec. apply norm_cdf_derivative.
      * apply derivable_pt_lim_scal.
        apply derivable_pt_lim_comp; [now apply d2_derivative_spot |].
        rewrite <- norm_pdf_spec. apply norm_cdf_derivative.
    + unfold Spec.call_delta, comp, id.
      assert (Hid := density_identity S K T r sigma HS HK HT Hsigma).
      rewrite <- (Rmult_assoc (K * exp (- (r * T)))), Hid. ring.
Qed.

Lemma put_premium_derivative_spot (S K T r sigma : R) :
  0 < S -> 0 < K -> 0 < T -> 0 < sigma ->
  derivable_pt_lim (fun s => Spec.put_premium norm_cdf s K T r sigma) S
    (Spec.put_delta norm_cdf S K T r sigma).
Proof.
  intros HS HK HT Hsigma.
  apply (derivable_pt_lim_ext
           (minus_fct
              (mult_real_fct (K * exp (- (r * T)))
                 (comp norm_cdf (opp_fct (fun s => Spec.d2 s K T r sigma))))
              (mult_fct id
                 (comp norm_cdf (opp_fct (fun s => Spec.d1 s K T r sigma)))))).
  - intros z. reflexivity.
  - replace (Spec.put_delta norm_cdf S K T r sigma)
      with (K * exp (- (r * T))
            * (Spec.phi (opp_fct (fun s => Spec.d2 s K T r sigma) S)
               * - / (S * sigma * sqrt T))
            - (1 * comp norm_cdf (opp_fct (fun s => Spec.d1 s K T r sigma)) S
               + id S * (Spec.phi (opp_fct (fun s => Spec.d1 s K T r sigma) S)
                         * - / (S * sigma * sqrt T)))).
    + apply derivable_pt_lim_minus.
      * apply derivable_pt_lim_scal. apply derivable_pt_lim_comp.
        -- apply derivable_pt_lim_opp. now apply d2_derivative_spot.
        -- rewrite <- norm_pdf_spec. apply norm_cdf_derivative.
      * apply derivable_pt_lim_mult; [apply derivable_pt_lim_id |].
        apply derivable_pt_lim_comp.
        -- apply derivable_pt_lim_opp. now apply d1_derivative_spot.
        -- rewrite <- norm_pdf_spec. apply norm_cdf_derivative.
    + unfold Spec.put_delta, comp, opp_fct, id. rewrite !phi_even.
      rewrite norm_cdf_symmetric.
      assert (Hid := density_identity S K T r sigma HS HK HT Hsigma).
      rewrite <- (Rmult_assoc (K * exp (- (r * T)))), Hid. ring.
Qed.

(** X9.  [delta] is the sensitivity of the premium to the spot: for S > 0,
    K > 0, T > 0, sigma > 0 and a call or a put, what [delta] returns is
    the derivative in S of what [black_scholes] returns. *)
Theorem delta_is_spot_derivative (S K T r sigma : R) (kind : string) :
  0 < S -> 0 < K -> 0 < T -> 0 < sigma ->
  kind = "call"%string \/ kind = "put"%string ->
  exists d : R,
    delta (mkRisk S K T r sigma kind) = Return (Float d)
    /\ derivable_pt_lim
         (fun s => premium_fn (mkBlackScholes s K T r kind) sigma) S d.
Proof.
  intros HS HK HT Hsigma Hkind. assert (HK0 : K <> 0) by lra.
  destruct Hkind as [-> | ->].
  - exists (Spec.call_delta norm_cdf S K T r sigma). split.
    + now apply delta_call.
    + apply (derivable_pt_lim_ext
               (fun s => Spec.call_premium norm_cdf s K T r sigma)).
      * intros z. unfold premium_fn. now rewrite black_scholes_call.
      * now apply call_premium_derivative_spot.
  - exists (Spec.put_delta norm_cdf S K T r sigma). split.
    + now apply delta_put.
    + apply (derivable_pt_lim_ext
               (fun s => Spec.put_premium norm_cdf s K T r sigma)).
      * intros z. unfold premium_fn. now rewrite black_scholes_put.
      * now apply put_premium_derivative_spot.
Qed.

(** X10.  [gamma] is the sensitivity of [delta] to the spot: for S > 0,
    K > 0, T > 0, sigma > 0 and a call or a put, what [gamma] returns is
    the derivative in S of what [delta] returns. *)
Theorem gamma_is_delta_derivative (S K T r sigma : R) (kind : string) :
  0 < S -> 0 < K -> 0 < T -> 0 < sigma ->
  kind = "call"%string \/ kind = "put"%string ->
  exists g : R,
    gamma (mkRisk S K T r sigma kind) = Return (Float g)
    /\ derivable_pt_lim (fun s => delta_fn (mkRisk s K T r sigma kind)) S g.
Proof.
  intros HS HK HT Hsigma Hkind. assert (HK0 : K <> 0) by lra.
  assert (Hc : 0 < sqrt T) by now apply sqrt_lt_R0.
  exists (Spec.gamma S K T r sigma). split; [now apply gamma_any_kind |].
  assert (Hd1 : derivable_pt_lim
                  (comp norm_cdf (fun s => Spec.d1 s K T r sigma)) S
                  (Spec.gamma S K T r sigma)).
  { replace (Spec.gamma S K T r sigma)
      with (Spec.phi (Spec.d1 S K T r sigma) * / (S * sigma * sqrt T))
      by reflexivity.
    apply derivable_pt_lim_comp; [now apply d1_derivative_spot |].
    rewrite <- norm_pdf_spec. apply norm_cdf_derivative. }
  destruct Hkind as [-> | ->].
  - apply (derivable_pt_lim_ext
             (comp norm_cdf (fun s => Spec.d1 s K T r sigma))).
    + intros z. unfold delta_fn. now rewrite delta_call.
    + exact Hd1.
  - apply (derivable_pt_lim_ext
             (minus_fct (comp norm_cdf (fun s => Spec.d1 s K T r sigma))
                        (fct_cte 1))).
    + intros z. unfold delta_fn. now rewrite delta_put.
    + replace (Spec.gamma S K T r sigma)
        with (Spec.gamma S K T r sigma - 0) by ring.
      apply derivable_pt_lim_minus; [exact Hd1 |].
      apply derivable_pt_lim_const.
Qed.

(** ** Further properties: the premium *)

Lemma vega_per_unit_sigma_pos (S K T r sigma : R) :
  0 < S -> 0 < T -> 0 < Spec.vega_per_unit_sigma S K T r sigma.
Proof.
  intros HS HT. unfold Spec.vega_per_unit_sigma.
  assert (Hc : 0 < sqrt T) by now apply sqrt_lt_R0.
  assert (Hphi : 0 < Spec.phi (Spec.d1 S K T r sigma))
    by (rewrite <- norm_pdf_spec; apply norm_pdf_pos).
  apply Rmult_lt_0_compat; [apply Rmult_lt_0_compat |]; assumption.
Qed.

(** *** The sign of the premium

    Facts on the distribution function over the reals.  The ratio cdf/pdf
    is strictly increasing; this rests on pdf x + x * cdf x > 0, which
    follows from its derivative cdf being positive and from the decay of
    cdf at minus infinity. *)

Lemma norm_pdf_derivative (x : R) :
  derivable_pt_lim norm_pdf x (- x * norm_pdf x).
Proof.
  assert (Hs := sqrt_2PI_pos).
  apply (derivable_pt_lim_ext (mult_real_fct (/ sqrt (2 * PI)) (kern 1))).
  - intros z. unfold mult_real_fct, kern, norm_pdf.
    replace (- (1 * (z * z)) / 2) with (- z ^ 2 / 2) by field.
    unfold Rdiv. ring.
  - replace (- x * norm_pdf x)
      with (/ sqrt (2 * PI) * (- (1 * x) * kern 1 x)).
    + apply derivable_pt_lim_scal, kern_derivative.
    + unfold kern, norm_pdf.
      replace (- (1 * (x * x)) / 2) with (- x ^ 2 / 2) by field.
      unfold Rdiv. ring.
Qed.

Lemma norm_cdf_increasing (x y : R) : x < y -> norm_cdf x < norm_cdf y.
Proof.
  intros Hlt.
  destruct (MVT_cor2 norm_cdf norm_pdf x y Hlt) as (c & Hc & _).
  - intros c _. apply norm_cdf_derivative.
  - assert (Hp := norm_pdf_pos c).
    assert (0 < norm_pdf c * (y - x)) by (apply Rmult_lt_0_compat; lra).
    lra.
Qed.

Lemma slice_integral_le (x : R) :
  RiemannInt (slice_integrable x) <= exp (- (x * x) / 2).
Proof.
  assert (Hp := exp_pos (- (x * x) / 2)).
  assert (Hb : 0 * (1 - 0) <= RiemannInt (slice_integrable x)
               <= exp (- (x * x) / 2) * (1 - 0)).
  { apply (@RiemannInt_const_bound (slice x) 0 1 0 (exp (- (x * x) / 2))
             (slice_integrable x)); [lra |].
    intros t Ht. unfold slice.
    assert (Hk := kern_pos (1 + t * t) x).
    assert (Hup : kern (1 + t * t) x <= exp (- (x * x) / 2)).
    { unfold kern. apply exp_le.
      assert (0 <= (t * t) * (x * x)) by (apply Rmult_le_pos; nra). lra. }
    assert (Ht2 : 1 <= 1 + t * t) by nra.
    split.
    - apply Rlt_le, Rdiv_lt_0_compat; lra.
    - apply Rle_trans with (kern (1 + t * t) x / 1); [| lra].
      unfold Rdiv. apply Rmult_le_compat_l; [lra |].
      apply Rinv_le_contravar; lra. }
  lra.
Qed.

Lemma norm_cdf_tail (x : R) : x <= 0 -> norm_cdf x <= exp (- (x * x) / 2).
Proof.
  intros Hx.
  assert (Hhalf : norm_cdf x <= 1 / 2).
  { destruct Hx as [Hlt | ->]; [| rewrite norm_cdf_0; lra].
    assert (H := norm_cdf_increasing x 0 Hlt). rewrite norm_cdf_0 in H. lra. }
  assert (Hr := norm_cdf_range x).
  assert (Hq := cdf_sqr_identity x).
  assert (Hi := slice_integral_le x).
  assert (Hip := slice_integral_pos x).
  assert (Hpi := PI2_1).
  set (I := RiemannInt (slice_integrable x)) in *.
  set (e := exp (- (x * x) / 2)) in *.
  assert (HI : I = PI * (norm_cdf x * (1 - norm_cdf x))).
  { assert (Hpi0 : PI <> 0) by lra.
    replace (norm_cdf x * (1 - norm_cdf x))
      with (1 / 4 - (norm_cdf x - 1 / 2) * (norm_cdf x - 1 / 2)) by field.
    rewrite <- Hq. field. exact Hpi0. }
  assert (H1 : norm_cdf x * (1 / 2) <= norm_cdf x * (1 - norm_cdf x))
    by (apply Rmult_le_compat_l; lra).
  assert (H2 : 2 * (norm_cdf x * (1 - norm_cdf x))
               <= PI * (norm_cdf x * (1 - norm_cdf x))).
  { apply Rmult_le_compat_r; [| lra]. apply Rmult_le_pos; lra. }
  lra.
Qed.

Lemma exp_neg_half_sqr_le (y : R) : exp (- (y * y) / 2) <= / (1 + y * y / 2).
Proof.
  assert (H0 : 0 <= y * y) by nra.
  replace (- (y * y) / 2) with (- (y * y / 2)) by field.
  rewrite exp_Ropp. apply Rinv_le_contravar; [lra |].
  apply exp_ineq1_le.
Qed.

Lemma pdf_plus_x_cdf_derivative (x : R) :
  derivable_pt_lim (fun y => norm_pdf y + y * norm_cdf y) x (norm_cdf x).
Proof.
  replace (norm_cdf x)
    with (- x * norm_pdf x + (1 * norm_cdf x + id x * norm_pdf x))
    by (unfold id; ring).
  apply (derivable_pt_lim_plus norm_pdf (mult_fct id norm_cdf)).
  - apply norm_pdf_derivative.
  - apply derivable_pt_lim_mult;
      [apply derivable_pt_lim_id | apply norm_cdf_derivative].
Qed.

Lemma pdf_plus_x_cdf_increasing (x y : R) :
  x < y -> norm_pdf x + x * norm_cdf x < norm_pdf y + y * norm_cdf y.
Proof.
  intros Hlt.
  destruct (MVT_cor2 (fun y => norm_pdf y + y * norm_cdf y) norm_cdf x y Hlt)
    as (c & Hc & _).
  - intros c _. apply pdf_plus_x_cdf_derivative.
  - assert (Hp := norm_cdf_range c).
    assert (0 < norm_cdf c * (y - x)) by (apply Rmult_lt_0_compat; lra).
    lra.
Qed.

Lemma pdf_plus_x_cdf_lower (y : R) :
  y < 0 -> 2 / y <= norm_pdf y + y * norm_cdf y.
Proof.
  intros Hy.
  assert (Hp := norm_pdf_pos y).
  assert (Ht := norm_cdf_tail y (Rlt_le _ _ Hy)).
  assert (He := exp_neg_half_sqr_le y).
  assert (Hc : norm_cdf y <= / (1 + y * y / 2)) by lra.
  assert (Hyy : 0 < y * y) by nra.
  assert (Hb : / (1 + y * y / 2) <= 2 / (y * y)).
  { unfold Rdiv at 2. rewrite <- (Rinv_inv 2), <- Rinv_mult.
    apply Rinv_le_contravar; [| lra].
    apply Rmult_lt_0_compat; [lra | exact Hyy]. }
  assert (Hm : y * (2 / (y * y)) <= y * norm_cdf y).
  { apply Rmult_le_compat_neg_l; lra. }
  replace (2 / y) with (y * (2 / (y * y))) by (field; lra). lra.
Qed.

Lemma pdf_plus_x_cdf_pos (x : R) : 0 < norm_pdf x + x * norm_cdf x.
Proof.
  assert (Hnn : forall z : R, 0 <= norm_pdf z + z * norm_cdf z).
  { intros z. apply Rnot_lt_le. intros Hneg.
    set (q := norm_pdf z + z * norm_cdf z) in *.
    pose (y := Rmin z 0 - 1 - 2 / - q).
    assert (Hq : 0 < 2 / - q) by (apply Rdiv_lt_0_compat; lra).
    assert (Hmin1 := Rmin_l z 0). assert (Hmin2 := Rmin_r z 0).
    assert (Hy0 : y < 0) by (unfold y; lra).
    assert (Hyz : y < z) by (unfold y; lra).
    assert (Hinc := pdf_plus_x_cdf_increasing y z Hyz). fold q in Hinc.
    assert (Hlow := pdf_plus_x_cdf_lower y Hy0).
    assert (Hlt : q < 2 / y).
    { assert (Hny : 2 / - q < - y) by (unfold y; lra).
      assert (Hyq : 2 < - y * - q).
      { apply Rmult_lt_reg_r with (/ - q); [apply Rinv_0_lt_compat; lra |].
        rewrite Rmult_assoc, Rinv_r, Rmult_1_r by lra. exact Hny. }
      apply Rmult_lt_reg_r with (- y); [lra |].
      replace (2 / y * - y) with (-2) by (field; lra). lra. }
    lra. }
  assert (H := pdf_plus_x_cdf_increasing (x - 1) x). specialize (Hnn (x - 1)).
  lra.
Qed.

(** The ratio cdf/pdf is strictly increasing, in product form. *)
Lemma cdf_pdf_ratio_increasing (a b : R) :
  a < b -> norm_cdf a * norm_pdf b < norm_cdf b * norm_pdf a.
Proof.
  intros Hlt.
  pose (h := fun t : R => norm_pdf a * norm_cdf t - norm_cdf a * norm_pdf t).
  pose (h' := fun t : R =>
                norm_pdf a * norm_pdf t - norm_cdf a * (- t * norm_pdf t)).
  destruct (MVT_cor2 h h' a b Hlt) as (c & Hc & Hcb).
  - intros c _. unfold h, h'.
    apply (derivable_pt_lim_minus (mult_real_fct (norm_pdf a) norm_cdf)
             (mult_real_fct (norm_cdf a) norm_pdf)).
    + apply derivable_pt_lim_scal, norm_cdf_derivative.
    + apply derivable_pt_lim_scal, norm_pdf_derivative.
  - unfold h, h' in Hc.
    assert (Hq := pdf_plus_x_cdf_pos a).
    assert (Hpc := norm_pdf_pos c).
    assert (Hra := norm_cdf_range a).
    assert (Hpos : 0 < norm_pdf c * (norm_pdf a + c * norm_cdf a)).
    { apply Rmult_lt_0_compat; [exact Hpc |].
      assert (a * norm_cdf a < c * norm_cdf a)
        by (apply Rmult_lt_compat_r; lra).
      lra. }
    assert (0 < norm_pdf c * (norm_pdf a + c * norm_cdf a) * (b - a))
      by (apply Rmult_lt_0_compat; lra).
    nra.
Qed.

Lemma premiums_pos (S K T r sigma : R) :
  0 < S -> 0 < K -> 0 < T -> 0 < sigma ->
  0 < Spec.call_premium norm_cdf S K T r sigma
  /\ 0 < Spec.put_premium norm_cdf S K T r sigma.
Proof.
  intros HS HK HT Hsigma.
  assert (Hc : 0 < sqrt T) by now apply sqrt_lt_R0.
  assert (Hid := density_identity S K T r sigma HS HK HT Hsigma).
  rewrite <- !norm_pdf_spec in Hid.
  unfold Spec.call_premium, Spec.put_premium.
  set (d1 := Spec.d1 S K T r sigma) in *.
  set (d2 := Spec.d2 S K T r sigma) in *.
  set (Kd := K * exp (- (r * T))) in *.
  assert (HKd : 0 < Kd) by (apply Rmult_lt_0_compat; [lra | apply exp_pos]).
  assert (Hlt : d2 < d1).
  { unfold d2, Spec.d2. fold d1.
    assert (0 < sigma * sqrt T) by (apply Rmult_lt_0_compat; lra). lra. }
  assert (Hp1 := norm_pdf_pos d1).
  split.
  - assert (Hm := cdf_pdf_ratio_increasing d2 d1 Hlt).
    apply Rmult_lt_reg_l with (norm_pdf d1); [exact Hp1 |].
    rewrite Rmult_0_r.
    assert (HmK : Kd * (norm_cdf d2 * norm_pdf d1)
                  < Kd * (norm_cdf d1 * norm_pdf d2))
      by (apply Rmult_lt_compat_l; assumption).
    replace (norm_pdf d1 * (S * norm_cdf d1 - Kd * norm_cdf d2))
      with (norm_cdf d1 * (S * norm_pdf d1)
            - Kd * (norm_cdf d2 * norm_pdf d1)) by ring.
    rewrite <- Hid. lra.
  - assert (Hlt' : - d1 < - d2) by lra.
    assert (Hm := cdf_pdf_ratio_increasing (- d1) (- d2) Hlt').
    rewrite !norm_pdf_even in Hm.
    apply Rmult_lt_reg_l with (norm_pdf d1); [exact Hp1 |].
    rewrite Rmult_0_r.
    assert (HmK : Kd * (norm_cdf (- d1) * norm_pdf d2)
                  < Kd * (norm_cdf (- d2) * norm_pdf d1))
      by (apply Rmult_lt_compat_l; assumption).
    replace (norm_pdf d1 * (Kd * norm_cdf (- d2) - S * norm_cdf (- d1)))
      with (Kd * (norm_cdf (- d2) * norm_pdf d1)
            - norm_cdf (- d1) * (S * norm_pdf d1)) by ring.
    rewrite <- Hid. lra.
Qed.

(** X14.  For S > 0, K > 0, T > 0, any r and sigma > 0, the premiums
    [black_scholes] returns are never negative and never above what the
    contract can pay: the call lies between 0 and S, the put between 0 and
    K*exp(-r*T), bounds included. *)
Theorem premium_bounds (S K T r sigma : R) :
  0 < S -> 0 < K -> 0 < T -> 0 < sigma ->
  exists c p : R,
    black_scholes (mkBlackScholes S K T r "call") sigma = Return (Float c)
    /\ black_scholes (mkBlackScholes S K T r "put") sigma = Return (Float p)
    /\ 0 <= c <= S
    /\ 0 <= p <= K * exp (- r * T).
Proof.
  intros HS HK HT Hsigma. assert (HK0 : K <> 0) by lra.
  exists (Spec.call_premium norm_cdf S K T r sigma),
         (Spec.put_premium norm_cdf S K T r sigma).
  destruct (premiums_pos S K T r sigma HS HK HT Hsigma) as [Hcp Hpp].
  replace (- r * T) with (- (r * T)) by ring.
  assert (HKd : 0 < K * exp (- (r * T)))
    by (apply Rmult_lt_0_compat; [lra | apply exp_pos]).
  assert (Hcu : Spec.call_premium norm_cdf S K T r sigma <= S).
  { unfold Spec.call_premium.
    assert (H1 := norm_cdf_range (Spec.d1 S K T r sigma)).
    assert (H2 := norm_cdf_range (Spec.d2 S K T r sigma)).
    assert (S * norm_cdf (Spec.d1 S K T r sigma) <= S * 1)
      by (apply Rmult_le_compat_l; lra).
    assert (0 <= K * exp (- (r * T)) * norm_cdf (Spec.d2 S K T r sigma))
      by (apply Rmult_le_pos; lra).
    lra. }
  assert (Hpu : Spec.put_premium norm_cdf S K T r sigma
                <= K * exp (- (r * T))).
  { unfold Spec.put_premium.
    assert (H1 := norm_cdf_range (- Spec.d1 S K T r sigma)).
    assert (H2 := norm_cdf_range (- Spec.d2 S K T r sigma)).
    assert (K * exp (- (r * T)) * norm_cdf (- Spec.d2 S K T r sigma)
            <= K * exp (- (r * T)) * 1)
      by (apply Rmult_le_compat_l; lra).
    assert (0 <= S * norm_cdf (- Spec.d1 S K T r sigma))
      by (apply Rmult_le_pos; lra).
    lra. }
  repeat split; try lra.
  - now apply black_scholes_call.
  - now apply black_scholes_put.
Qed.

(** *** The delta across spots *)

Lemma norm_cdf_upper_tail (x : R) :
  0 <= x -> 1 - exp (- (x * x) / 2) <= norm_cdf x.
Proof.
  intros Hx.
  assert (H := norm_cdf_tail (- x)). rewrite norm_cdf_symmetric in H.
  replace (- x * - x) with (x * x) in H by ring. lra.
Qed.

(** *** Where binary64 reaches the ends

    From 11 on the distribution function is within 2^-54 of 1, and from 47
    on [exp (- x^2 / 2)] is below 2^-1075. *)

Lemma pow2_le_exp (n : nat) : 2 ^ n <= exp (INR n).
Proof.
  induction n as [| n IH].
  - cbn. rewrite exp_0. lra.
  - rewrite S_INR, exp_plus. cbn [pow].
    assert (H2 : 2 <= exp 1) by (assert (H := exp_ineq1_le 1); lra).
    assert (Hp : 0 <= 2 ^ n) by (apply pow_le; lra).
    rewrite (Rmult_comm 2).
    apply Rmult_le_compat; lra.
Qed.

Lemma exp_le_pow3 (n : nat) : exp (INR n) <= 3 ^ n.
Proof.
  induction n as [| n IH].
  - cbn. rewrite exp_0. lra.
  - rewrite S_INR, exp_plus. cbn [pow].
    assert (H3 := exp_le_3).
    assert (He := exp_pos (INR n)). assert (H1 := exp_pos 1).
    rewrite (Rmult_comm 3).
    apply Rmult_le_compat; lra.
Qed.

Lemma exp_neg_le_pow2 (n : nat) (y : R) : INR n <= y -> exp (- y) <= / 2 ^ n.
Proof.
  intros Hy.
  assert (Hp : 0 < 2 ^ n) by (apply pow_lt; lra).
  apply Rle_trans with (exp (- INR n)); [apply exp_le; lra |].
  rewrite exp_Ropp. apply Rinv_le_contravar; [exact Hp | apply pow2_le_exp].
Qed.

Lemma ln_ge_nat (n : nat) (x : R) : 3 ^ n <= x -> INR n <= ln x.
Proof.
  intros Hx.
  assert (Hp : 0 < 3 ^ n) by (apply pow_lt; lra).
  assert (He := exp_le_pow3 n).
  apply Rnot_lt_le. intros Hlt.
  apply exp_increasing in Hlt. rewrite exp_ln in Hlt; lra.
Qed.

Lemma inv_pow2_lt_1 (n : nat) : / 2 ^ S n < 1.
Proof.
  assert (Hp : 1 <= 2 ^ n) by (apply pow_R1_Rle; lra).
  cbn [pow]. apply Rlt_le_trans with (/ 1); [| rewrite Rinv_1; lra].
  apply Rinv_lt_contravar; lra.
Qed.

Lemma norm_cdf_b64_one (x : R) : 11 <= x -> norm_cdf_b64 x = 1.
Proof.
  intros Hx.
  assert (Hup := norm_cdf_upper_tail x).
  assert (He : exp (- (x * x) / 2) <= / 2 ^ 54).
  { replace (- (x * x) / 2) with (- (x * x / 2)) by field.
    apply exp_neg_le_pow2. rewrite INR_IZR_INZ. cbn [Z.of_nat Pos.of_succ_nat Pos.succ]. nra. }
  unfold norm_cdf_b64, b64_to_one.
  destruct (Rle_dec (1 - / 2 ^ 54) (norm_cdf x)) as [_ | N]; [| exfalso; lra].
  unfold b64_underflow.
  destruct (Rle_dec 1 (/ 2 ^ 1075)) as [H | _]; [| reflexivity].
  assert (H1 := inv_pow2_lt_1 1074). lra.
Qed.

Lemma norm_pdf_b64_zero (x : R) : 47 <= x -> norm_pdf_b64 x = 0.
Proof.
  intros Hx.
  assert (He : exp (- x ^ 2 / 2) <= / 2 ^ 1075).
  { replace (- x ^ 2 / 2) with (- (x * x / 2)) by field.
    apply exp_neg_le_pow2. rewrite INR_IZR_INZ.
    replace (IZR (Z.of_nat 1075)) with 1075 by (f_equal; reflexivity). nra. }
  assert (Hp : 0 < / 2 ^ 1075) by (apply Rinv_0_lt_compat, pow_lt; lra).
  unfold norm_pdf_b64, np_exp_b64.
  unfold b64_underflow at 2.
  destruct (Rle_dec (exp (- x ^ 2 / 2)) (/ 2 ^ 1075)) as [_ | N];
    [| contradiction].
  unfold Rdiv. rewrite Rmult_0_l. unfold b64_underflow.
  destruct (Rle_dec 0 (/ 2 ^ 1075)) as [_ | N]; [reflexivity | exfalso; lra].
Qed.

(** The contract S = 100, K = 1, T = 1, r = 0.05, sigma = 0.2 has d1 = 23.4;
    with S = 1000000 it has d1 = 69.4. *)
Lemma d1_deep_call : 11 <= Spec.d1 100 1 1 0.05 0.2.
Proof.
  unfold Spec.d1. rewrite sqrt_1.
  assert (Hln : INR 4 <= ln (100 / 1)) by (apply ln_ge_nat; lra).
  rewrite INR_IZR_INZ in Hln. cbn [Z.of_nat Pos.of_succ_nat Pos.succ] in Hln.
  replace (0.2 * 1) with (/ 5) by lra. unfold Rdiv at 1. rewrite Rinv_inv. lra.
Qed.

Lemma d1_deeper_call : 47 <= Spec.d1 1000000 1 1 0.05 0.2.
Proof.
  unfold Spec.d1. rewrite sqrt_1.
  assert (Hln : INR 12 <= ln (1000000 / 1)) by (apply ln_ge_nat; lra).
  rewrite INR_IZR_INZ in Hln.
  replace (IZR (Z.of_nat 12)) with 12 in Hln by (f_equal; reflexivity).
  replace (0.2 * 1) with (/ 5) by lra. unfold Rdiv at 1. rewrite Rinv_inv. lra.
Qed.

Lemma exp_neg_half_sqr_small (eps : R) :
  0 < eps -> exp (- ((1 + / eps) * (1 + / eps)) / 2) < eps.
Proof.
  intros Heps.
  assert (Hi : 0 < / eps) by now apply Rinv_0_lt_compat.
  apply Rle_lt_trans with (/ (1 + (1 + / eps) * (1 + / eps) / 2));
    [apply exp_neg_half_sqr_le |].
  set (i := / eps) in *.
  assert (He : eps * i = 1) by (unfold i; field; lra).
  assert (HX : 0 < 1 + (1 + i) * (1 + i) / 2) by nra.
  apply Rmult_lt_reg_r with (1 + (1 + i) * (1 + i) / 2); [exact HX |].
  rewrite Rinv_l by lra.
  replace (eps * (1 + (1 + i) * (1 + i) / 2))
    with (eps + eps / 2 + eps * i + eps * i * i / 2) by field.
  rewrite He. lra.
Qed.

Lemma d1_above (S K T r sigma B : R) :
  0 < K -> 0 < T -> 0 < sigma ->
  K * exp (B * (sigma * sqrt T) - (r + 0.5 * (sigma * sigma)) * T) < S ->
  B < Spec.d1 S K T r sigma.
Proof.
  intros HK HT Hsigma HS.
  assert (Hc : 0 < sqrt T) by now apply sqrt_lt_R0.
  assert (Hsc : 0 < sigma * sqrt T) by (apply Rmult_lt_0_compat; lra).
  set (c0 := (r + 0.5 * (sigma * sigma)) * T) in *.
  assert (He := exp_pos (B * (sigma * sqrt T) - c0)).
  assert (Hq : exp (B * (sigma * sqrt T) - c0) < S / K).
  { apply Rmult_lt_reg_l with K; [exact HK |].
    replace (K * (S / K)) with S by (field; lra). exact HS. }
  assert (Hln : B * (sigma * sqrt T) - c0 < ln (S / K)).
  { rewrite <- (ln_exp (B * (sigma * sqrt T) - c0)).
    apply ln_increasing; assumption. }
  unfold Spec.d1. fold c0.
  apply Rmult_lt_reg_r with (sigma * sqrt T); [exact Hsc |].
  replace ((ln (S / K) + c0) / (sigma * sqrt T) * (sigma * sqrt T))
    with (ln (S / K) + c0) by (field; lra).
  lra.
Qed.

Lemma d1_below (S K T r sigma B : R) :
  0 < S -> 0 < K -> 0 < T -> 0 < sigma ->
  S < K * exp (B * (sigma * sqrt T) - (r + 0.5 * (sigma * sigma)) * T) ->
  Spec.d1 S K T r sigma < B.
Proof.
  intros HS HK HT Hsigma HSlt.
  assert (Hc : 0 < sqrt T) by now apply sqrt_lt_R0.
  assert (Hsc : 0 < sigma * sqrt T) by (apply Rmult_lt_0_compat; lra).
  set (c0 := (r + 0.5 * (sigma * sigma)) * T) in *.
  assert (Hq : S / K < exp (B * (sigma * sqrt T) - c0)).
  { apply Rmult_lt_reg_l with K; [exact HK |].
    replace (K * (S / K)) with S by (field; lra). exact HSlt. }
  assert (Hln : ln (S / K) < B * (sigma * sqrt T) - c0).
  { rewrite <- (ln_exp (B * (sigma * sqrt T) - c0)).
    apply ln_increasing; [apply Rdiv_lt_0_compat |]; assumption. }
  unfold Spec.d1. fold c0.
  apply Rmult_lt_reg_r with (sigma * sqrt T); [exact Hsc |].
  replace ((ln (S / K) + c0) / (sigma * sqrt T) * (sigma * sqrt T))
    with (ln (S / K) + c0) by (field; lra).
  lra.
Qed.

(** X15.  Deep in and out of the money: for K > 0, T > 0, sigma > 0 and
    every eps > 0 there are positive spots S_hi and S_lo such that the
    call delta differs from 1 by less than eps for every S above S_hi, and
    from 0 by less than eps for every positive S below S_lo. *)
Theorem call_delta_deep (K T r sigma eps : R) :
  0 < K -> 0 < T -> 0 < sigma -> 0 < eps ->
  exists S_hi S_lo : R,
    0 < S_hi /\ 0 < S_lo
    /\ (forall S : R, S_hi < S ->
          exists d : R,
            delta (mkRisk S K T r sigma "call") = Return (Float d)
            /\ Rabs (d - 1) < eps)
    /\ (forall S : R, 0 < S -> S < S_lo ->
          exists d : R,
            delta (mkRisk S K T r sigma "call") = Return (Float d)
            /\ Rabs d < eps).
Proof.
  intros HK HT Hsigma Heps. assert (HK0 : K <> 0) by lra.
  pose (B := 1 + / eps).
  assert (Hi : 0 < / eps) by now apply Rinv_0_lt_compat.
  assert (HB : 0 < B) by (unfold B; lra).
  assert (Hsmall : exp (- (B * B) / 2) < eps)
    by now apply exp_neg_half_sqr_small.
  exists (K * exp (B * (sigma * sqrt T) - (r + 0.5 * (sigma * sigma)) * T)),
         (K * exp (- B * (sigma * sqrt T) - (r + 0.5 * (sigma * sigma)) * T)).
  split; [apply Rmult_lt_0_compat; [exact HK | apply exp_pos] |].
  split; [apply Rmult_lt_0_compat; [exact HK | apply exp_pos] |].
  split.
  - intros S HS. exists (Spec.call_delta norm_cdf S K T r sigma).
    split; [now apply delta_call |]. unfold Spec.call_delta.
    assert (Hd := d1_above S K T r sigma B HK HT Hsigma HS).
    assert (Hinc := norm_cdf_increasing B _ Hd).
    assert (Hup := norm_cdf_upper_tail B (Rlt_le _ _ HB)).
    assert (Hr := norm_cdf_range (Spec.d1 S K T r sigma)).
    apply Rabs_def1; lra.
  - intros S HS0 HS. exists (Spec.call_delta norm_cdf S K T r sigma).
    split; [now apply delta_call |]. unfold Spec.call_delta.
    assert (Hd := d1_below S K T r sigma (- B) HS0 HK HT Hsigma HS).
    assert (Hinc := norm_cdf_increasing _ (- B) Hd).
    assert (Hlow := norm_cdf_tail (- B)).
    replace (- B * - B) with (B * B) in Hlow by ring.
    assert (Hr := norm_cdf_range (Spec.d1 S K T r sigma)).
    apply Rabs_def1; lra.
Qed.

(** X16.  For K > 0, T > 0, sigma > 0 and a call or a put, [delta] never
    goes down when the spot goes up: a higher positive S gives a delta at
    least as high. *)
Theorem delta_monotone_in_spot (S1 S2 K T r sigma : R) (kind : string) :
  0 < K -> 0 < T -> 0 < sigma ->
  kind = "call"%string \/ kind = "put"%string ->
  0 < S1 -> S1 <= S2 ->
  exists d1 d2 : R,
    delta (mkRisk S1 K T r sigma kind) = Return (Float d1)
    /\ delta (mkRisk S2 K T r sigma kind) = Return (Float d2)
    /\ d1 <= d2.
Proof.
  intros HK HT Hsigma Hkind HS1 Hle. assert (HK0 : K <> 0) by lra.
  assert (Hc : 0 < sqrt T) by now apply sqrt_lt_R0.
  assert (Hsc : 0 < sigma * sqrt T) by (apply Rmult_lt_0_compat; lra).
  assert (Hinc : norm_cdf (Spec.d1 S1 K T r sigma)
                 <= norm_cdf (Spec.d1 S2 K T r sigma)).
  { destruct Hle as [Hlt | ->]; [| lra].
    apply Rlt_le, norm_cdf_increasing. unfold Spec.d1.
    assert (Hln : ln (S1 / K) < ln (S2 / K)).
    { apply ln_increasing; [apply Rdiv_lt_0_compat; lra |].
      apply Rmult_lt_compat_r; [now apply Rinv_0_lt_compat | exact Hlt]. }
    apply Rmult_lt_compat_r; [now apply Rinv_0_lt_compat | lra]. }
  destruct Hkind as [-> | ->].
  - exists (Spec.call_delta norm_cdf S1 K T r sigma),
           (Spec.call_delta norm_cdf S2 K T r sigma).
    repeat split; try (now apply delta_call). exact Hinc.
  - exists (Spec.put_delta norm_cdf S1 K T r sigma),
           (Spec.put_delta norm_cdf S2 K T r sigma).
    repeat split; try (now apply delta_put).
    unfold Spec.put_delta. lra.
Qed.

(** ** Further properties: legs *)

Lemma built_expected_valid (l : Leg) :
  built l ->
  exists (u k m r p : R) (kind : string),
    l = expected_leg u k m r p kind
    /\ k <> 0 /\ (kind = "call"%string \/ kind = "put"%string).
Proof.
  intros (u & k & m & r & p & kind & before & after & H).
  destruct (Leg_init_returns _ _ _ _ _ _ _ _ _ H) as [Hk Hkind].
  rewrite (Leg_init_valid u k m r p kind before Hk Hkind) in H.
  exists u, k, m, r, p, kind. repeat split; try assumption. now inversion H.
Qed.

(** X6.  Every leg the constructor returns keeps this invariant: its
    strike is nonzero, its kind is call or put, its sigma is what
    [implied_volatility] returns from the start point 0.2 for its own
    terms and price, and its cached delta, gamma and vega are what
    [delta], [gamma] and [vega] return for its own terms and sigma. *)
Theorem built_leg_invariant (l : Leg) :
  built l ->
  let pricer := mkBlackScholes (leg_underlying l) (leg_strike l)
                  (leg_maturity l) (leg_rate l) (leg_option l) in
  let risks := mkRisk (leg_underlying l) (leg_strike l) (leg_maturity l)
                 (leg_rate l) (leg_sigma l) (leg_option l) in
  leg_strike l <> 0
  /\ (leg_option l = "call"%string \/ leg_option l = "put"%string)
  /\ implied_volatility pricer 0.2 (leg_price l) = Return (leg_sigma l)
  /\ delta risks = Return (leg_delta l)
  /\ gamma risks = Return (leg_gamma l)
  /\ vega risks = Return (leg_vega l).
Proof.
  intros Hb.
  destruct (built_expected_valid l Hb)
    as (u & k & m & r & p & kind & -> & Hk & Hkind).
  cbn [expected_leg leg_underlying leg_strike leg_maturity leg_rate leg_price
       leg_sigma leg_delta leg_gamma leg_vega leg_option].
  repeat split.
  - exact Hk.
  - exact Hkind.
  - now apply implied_volatility_valid.
  - now apply delta_valid.
  - now apply gamma_any_kind.
  - now apply vega_any_kind.
Qed.

(** ** Further properties: strategies *)

Lemma built_float_delta (ls : list Leg) :
  Forall built ls -> Forall (fun l => exists x : R, leg_delta l = Float x) ls.
Proof.
  intros Hb. eapply Forall_impl; [| exact Hb]. intros l H.
  now destruct (built_cached_floats l H) as (? & _ & _).
Qed.

Lemma built_float_gamma (ls : list Leg) :
  Forall built ls -> Forall (fun l => exists x : R, leg_gamma l = Float x) ls.
Proof.
  intros Hb. eapply Forall_impl; [| exact Hb]. intros l H.
  now destruct (built_cached_floats l H) as (_ & ? & _).
Qed.

Lemma built_float_vega (ls : list Leg) :
  Forall built ls -> Forall (fun l => exists x : R, leg_vega l = Float x) ls.
Proof.
  intros Hb. eapply Forall_impl; [| exact Hb]. intros l H.
  now destruct (built_cached_floats l H) as (_ & _ & ?).
Qed.

(** What the three methods return on built legs, in one statement. *)
Lemma Strategy_on_built (ls : list Leg) (calls : list call) :
  Forall built ls ->
  let w := mkWorld (mkStrategy ls) calls in
  Strategy_delta w
  = (Return (total (map (fun l => as_float (leg_delta l)) ls)), w)
  /\ Strategy_gamma w
     = (Return (total (map (fun l => as_float (leg_gamma l)) ls)), w)
  /\ Strategy_vega w
     = (Return (total (map (fun l => as_float (leg_vega l)) ls)), w).
Proof.
  intros Hb w.
  assert (Sd := accumulate_floats leg_delta ls (built_float_delta ls Hb) 0 w).
  assert (Sg := accumulate_floats leg_gamma ls (built_float_gamma ls Hb) 0 w).
  assert (Sv := accumulate_floats leg_vega ls (built_float_vega ls Hb) 0 w).
  rewrite Rplus_0_l in Sd, Sg, Sv. repeat split; assumption.
Qed.

Lemma total_app (xs ys : list R) : total (xs ++ ys) = total xs + total ys.
Proof.
  induction xs as [| x xs IH]; cbn.
  - now rewrite Rplus_0_l.
  - fold (total (xs ++ ys)) (total xs). rewrite IH. ring.
Qed.

Lemma total_Permutation (xs ys : list R) :
  Permutation xs ys -> total xs = total ys.
Proof.
  induction 1 as [| x xs ys _ IH | x y xs | xs ys zs _ IH1 _ IH2]; cbn.
  - reflexivity.
  - fold (total xs) (total ys). now rewrite IH.
  - fold (total xs). ring.
  - now rewrite IH1.
Qed.

(** X7.  The order of the legs does not matter: on two strategies holding
    the same built legs in different orders, [Strategy.delta],
    [Strategy.gamma] and [Strategy.vega] return the same numbers (sums
    being taken over the reals). *)
Theorem Strategy_order_irrelevant (ls ls' : list Leg) (calls calls' : list call) :
  Forall built ls -> Permutation ls ls' ->
  fst (Strategy_delta (mkWorld (mkStrategy ls) calls))
  = fst (Strategy_delta (mkWorld (mkStrategy ls') calls'))
  /\ fst (Strategy_gamma (mkWorld (mkStrategy ls) calls))
     = fst (Strategy_gamma (mkWorld (mkStrategy ls') calls'))
  /\ fst (Strategy_vega (mkWorld (mkStrategy ls) calls))
     = fst (Strategy_vega (mkWorld (mkStrategy ls') calls')).
Proof.
  intros Hb Hp.
  assert (Hb' : Forall built ls') by (eapply Permutation_Forall; eassumption).
  destruct (Strategy_on_built ls calls Hb) as (Hd & Hg & Hv).
  destruct (Strategy_on_built ls' calls' Hb') as (Hd' & Hg' & Hv').
  rewrite Hd, Hg, Hv, Hd', Hg', Hv'. cbn [fst].
  repeat split; f_equal; apply total_Permutation;
    now apply Permutation_map.
Qed.

(** X8.  Aggregates add up: on the strategy holding the built legs of one
    strategy followed by the built legs of another, [Strategy.delta],
    [Strategy.gamma] and [Strategy.vega] return the sum of what they
    return on the two strategies. *)
Theorem Strategy_concatenation (ls1 ls2 : list Leg) (calls : list call) :
  Forall built ls1 -> Forall built ls2 ->
  let w1 := mkWorld (mkStrategy ls1) calls in
  let w2 := mkWorld (mkStrategy ls2) calls in
  let w := mkWorld (mkStrategy (ls1 ++ ls2)) calls in
  exists d1 g1 v1 d2 g2 v2 : R,
    (Strategy_delta w1 = (Return d1, w1)
     /\ Strategy_gamma w1 = (Return g1, w1)
     /\ Strategy_vega w1 = (Return v1, w1))
    /\ (Strategy_delta w2 = (Return d2, w2)
        /\ Strategy_gamma w2 = (Return g2, w2)
        /\ Strategy_vega w2 = (Return v2, w2))
    /\ (Strategy_delta w = (Return (d1 + d2), w)
        /\ Strategy_gamma w = (Return (g1 + g2), w)
        /\ Strategy_vega w = (Return (v1 + v2), w)).
Proof.
  intros Hb1 Hb2 w1 w2 w.
  assert (Hb : Forall built (ls1 ++ ls2)) by (apply Forall_app; now split).
  destruct (Strategy_on_built (ls1 ++ ls2) calls Hb) as (Hd & Hg & Hv).
  fold w in Hd, Hg, Hv. rewrite !map_app, !total_app in Hd, Hg, Hv.
  do 6 eexists. split; [| split].
  - exact (Strategy_on_built ls1 calls Hb1).
  - exact (Strategy_on_built ls2 calls Hb2).
  - repeat split; assumption.
Qed.

Lemma total_bounds (lo hi : R) (xs : list R) :
  Forall (fun x => lo <= x <= hi) xs ->
  INR (length xs) * lo <= total xs <= INR (length xs) * hi.
Proof.
  induction 1 as [| x xs Hx Hxs IH].
  - cbn. lra.
  - change (length (x :: xs)) with (S (length xs)).
    rewrite S_INR.
    change (total (x :: xs)) with (x + total xs). lra.
Qed.

Lemma total_nonneg (xs : list R) :
  Forall (fun x => 0 <= x) xs -> 0 <= total xs.
Proof.
  induction 1 as [| x xs Hx Hxs IH].
  - cbn. lra.
  - change (total (x :: xs)) with (x + total xs). lra.
Qed.

Lemma built_leg_greeks_bounds (l : Leg) :
  built l -> 0 < leg_underlying l -> 0 < leg_maturity l -> 0 < leg_sigma l ->
  -1 <= as_float (leg_delta l) <= 1
  /\ 0 <= as_float (leg_gamma l)
  /\ 0 <= as_float (leg_vega l).
Proof.
  intros Hb.
  destruct (built_expected_valid l Hb)
    as (u & k & m & r & p & kind & -> & Hk & Hkind).
  cbn [expected_leg leg_underlying leg_maturity leg_sigma leg_delta leg_gamma
       leg_vega as_float].
  set (sigma := fmin (target_fn (mkBlackScholes u k m r kind) p) 0.2).
  intros Hu Hm Hsigma.
  assert (Hc : 0 < sqrt m) by now apply sqrt_lt_R0.
  assert (Hphi : 0 < Spec.phi (Spec.d1 u k m r sigma))
    by (rewrite <- norm_pdf_spec; apply norm_pdf_pos).
  assert (Hr := norm_cdf_range (Spec.d1 u k m r sigma)).
  repeat split.
  - destruct (String.eqb kind "call");
      unfold Spec.call_delta, Spec.put_delta; lra.
  - destruct (String.eqb kind "call");
      unfold Spec.call_delta, Spec.put_delta; lra.
  - unfold Spec.gamma. apply Rlt_le, Rdiv_lt_0_compat; [exact Hphi |].
    apply Rmult_lt_0_compat; [apply Rmult_lt_0_compat |]; assumption.
  - unfold Spec.vega. apply Rlt_le, Rdiv_lt_0_compat; [| lra].
    now apply vega_per_unit_sigma_pos.
Qed.

(** X13.  On a strategy of n built legs whose spot, strike, maturity and
    recovered sigma are positive, [Strategy.gamma] and [Strategy.vega]
    return numbers that are positive or zero, and [Strategy.delta] a number
    between -n and n, bounds included. *)
Theorem Strategy_greeks_bounds (ls : list Leg) (calls : list call) :
  Forall (fun l => built l /\ 0 < leg_underlying l /\ 0 < leg_strike l
                   /\ 0 < leg_maturity l /\ 0 < leg_sigma l) ls ->
  let w := mkWorld (mkStrategy ls) calls in
  exists d g v : R,
    Strategy_delta w = (Return d, w)
    /\ Strategy_gamma w = (Return g, w)
    /\ Strategy_vega w = (Return v, w)
    /\ - INR (length ls) <= d <= INR (length ls)
    /\ 0 <= g /\ 0 <= v.
Proof.
  intros Hall w.
  assert (Hb : Forall built ls).
  { eapply Forall_impl; [| exact Hall]. now intros l [H _]. }
  assert (Hbd : Forall (fun l => -1 <= as_float (leg_delta l) <= 1
                                 /\ 0 <= as_float (leg_gamma l)
                                 /\ 0 <= as_float (leg_vega l)) ls).
  { eapply Forall_impl; [| exact Hall].
    intros l (H1 & H2 & _ & H3 & H4). now apply built_leg_greeks_bounds. }
  destruct (Strategy_on_built ls calls Hb) as (Hd & Hg & Hv).
  assert (Ht : INR (length ls) * -1
               <= total (map (fun l => as_float (leg_delta l)) ls)
               <= INR (length ls) * 1).
  { rewrite <- (length_map (fun l => as_float (leg_delta l)) ls).
    apply total_bounds, Forall_map.
    eapply Forall_impl; [| exact Hbd]. now intros l [H _]. }
  do 3 eexists. repeat split; try eassumption.
  - lra.
  - lra.
  - apply total_nonneg, Forall_map. eapply Forall_impl; [| exact Hbd].
    now intros l (_ & H & _).
  - apply total_nonneg, Forall_map. eapply Forall_impl; [| exact Hbd].
    now intros l (_ & _ & H).
Qed.

End RiskMetrics.

(** ** The claims on concrete contracts

    The contracts of the script at the end of [strategy.py]: S = 100,
    K = 100 (call) or 110 (put), T = 1, r = 0.05, and sigma = 0.2. *)

Lemma example_legs_built :
  Forall (built fmin_stalled)
    [expected_leg fmin_stalled 100 100 1 0.05 10 "call";
     expected_leg fmin_stalled 100 110 1 0.05 5 "put"].
Proof.
  repeat constructor.
  - exists 100, 100, 1, 0.05, 10, "call"%string, [].
    eexists. apply Leg_init_valid; [lra | now left].
  - exists 100, 110, 1, 0.05, 5, "put"%string, [].
    eexists. apply Leg_init_valid; [lra | now right].
Qed.

Lemma black_scholes_computes_premium_witness :
  black_scholes (mkBlackScholes 100 100 1 0.05 "call") 0.2
  = Return (Float (Spec.call_premium norm_cdf 100 100 1 0.05 0.2))
  /\ black_scholes (mkBlackScholes 100 100 1 0.05 "put") 0.2
     = Return (Float (Spec.put_premium norm_cdf 100 100 1 0.05 0.2)).
Proof.
  apply (black_scholes_computes_premium 100 100 1 0.05 0.2); lra.
Defined.

Lemma put_call_parity_witness :
  exists c p : R,
    black_scholes (mkBlackScholes 100 100 1 0.05 "call") 0.2
    = Return (Float c)
    /\ black_scholes (mkBlackScholes 100 100 1 0.05 "put") 0.2
       = Return (Float p)
    /\ c - p = 100 - 100 * exp (- (0.05) * 1)
    /\ Rabs ((c - p) - (100 - 100 * exp (- (0.05) * 1))) < 1e-6.
Proof.
  apply (put_call_parity 100 100 1 0.05 0.2); lra.
Defined.

Lemma delta_computes_formula_witness :
  delta (mkRisk 100 100 1 0.05 0.2 "call")
  = Return (Float (norm_cdf (Spec.d1 100 100 1 0.05 0.2)))
  /\ delta (mkRisk 100 100 1 0.05 0.2 "put")
     = Return (Float (norm_cdf (Spec.d1 100 100 1 0.05 0.2) - 1))
  /\ d1_expr 100 100 1 0.05 0.2 = Return (Spec.d1 100 100 1 0.05 0.2).
Proof.
  apply (delta_computes_formula 100 100 1 0.05 0.2); lra.
Defined.

Lemma vega_computes_formula_witness :
  vega (mkRisk 100 100 1 0.05 0.2 "put")
  = Return (Float (100 * Spec.phi (Spec.d1 100 100 1 0.05 0.2) * sqrt 1 / 100))
  /\ derivable_pt_lim
       (premium_fn (mkBlackScholes 100 100 1 0.05 "put")) 0.2
       (100 * Spec.phi (Spec.d1 100 100 1 0.05 0.2) * sqrt 1).
Proof.
  destruct (vega_computes_formula 100 100 1 0.05 0.2)
    as [Hv Hd]; [lra | lra | lra | lra |].
  split.
  - apply Hv.
  - apply Hd. now right.
Defined.

Lemma gamma_computes_formula_any_kind_witness :
  (forall kind : string,
     gamma (mkRisk 100 100 1 0.05 0.2 kind)
     = Return (Float (Spec.phi (Spec.d1 100 100 1 0.05 0.2)
                      / (100 * 0.2 * sqrt 1))))
  /\ gamma (mkRisk 100 100 1 0.05 0.2 "call")
     = gamma (mkRisk 100 100 1 0.05 0.2 "put").
Proof.
  apply (gamma_computes_formula_any_kind 100 100 1 0.05 0.2); lra.
Defined.

Lemma call_delta_minus_put_delta_witness :
  exists c p : R,
    delta (mkRisk 100 100 1 0.05 0.2 "call") = Return (Float c)
    /\ delta (mkRisk 100 100 1 0.05 0.2 "put") = Return (Float p)
    /\ c - p = 1.
Proof.
  apply (call_delta_minus_put_delta 100 100 1 0.05 0.2); lra.
Defined.

Lemma greeks_signs_binary64_witness :
  (forall kind : string, exists g : R,
     gamma_b64 (mkRisk 100 100 1 0.05 0.2 kind) = Return (Float g) /\ 0 <= g)
  /\ (forall kind : string, exists v : R,
        vega_b64 (mkRisk 100 100 1 0.05 0.2 kind) = Return (Float v)
        /\ 0 <= v)
  /\ (exists c : R,
        delta_b64 (mkRisk 100 100 1 0.05 0.2 "call")
        = Return (Float c) /\ 0 <= c <= 1)
  /\ (exists p : R,
        delta_b64 (mkRisk 100 100 1 0.05 0.2 "put")
        = Return (Float p) /\ -1 <= p <= 0).
Proof.
  apply (greeks_signs_binary64 100 100 1 0.05 0.2); lra.
Defined.

(** Deep in the money the bounds are reached: at S = 100, K = 1, T = 1,
    r = 0.05, sigma = 0.2 the call delta is exactly 1 and the put delta
    exactly 0, and at S = 1000000 with the same K, T, r and sigma the gamma
    and the vega are exactly 0.  So the call delta is not inside (0,1), the
    put delta not inside (-1,0), and gamma and vega are not strictly
    positive. *)
Lemma greeks_signs_not_strict :
  delta_b64 (mkRisk 100 1 1 0.05 0.2 "call") = Return (Float 1)
  /\ delta_b64 (mkRisk 100 1 1 0.05 0.2 "put") = Return (Float 0)
  /\ gamma_b64 (mkRisk 1000000 1 1 0.05 0.2 "call") = Return (Float 0)
  /\ vega_b64 (mkRisk 1000000 1 1 0.05 0.2 "call") = Return (Float 0)
  /\ ~ (exists c : R,
          delta_b64 (mkRisk 100 1 1 0.05 0.2 "call") = Return (Float c)
          /\ 0 < c < 1)
  /\ ~ (exists p : R,
          delta_b64 (mkRisk 100 1 1 0.05 0.2 "put") = Return (Float p)
          /\ -1 < p < 0)
  /\ ~ (exists g : R,
          gamma_b64 (mkRisk 1000000 1 1 0.05 0.2 "call") = Return (Float g)
          /\ 0 < g)
  /\ ~ (exists v : R,
          vega_b64 (mkRisk 1000000 1 1 0.05 0.2 "call") = Return (Float v)
          /\ 0 < v).
Proof.
  assert (H1 : (1 : R) <> 0) by lra.
  assert (Hc : delta_b64 (mkRisk 100 1 1 0.05 0.2 "call") = Return (Float 1)).
  { rewrite (delta_b64_call 100 1 1 0.05 0.2 H1).
    now rewrite (norm_cdf_b64_one _ d1_deep_call). }
  assert (Hp : delta_b64 (mkRisk 100 1 1 0.05 0.2 "put") = Return (Float 0)).
  { rewrite (delta_b64_put 100 1 1 0.05 0.2 H1).
    rewrite (norm_cdf_b64_one _ d1_deep_call). do 2 f_equal. ring. }
  assert (Hg : gamma_b64 (mkRisk 1000000 1 1 0.05 0.2 "call")
               = Return (Float 0)).
  { rewrite (gamma_b64_any_kind 1000000 1 1 0.05 0.2 "call" H1).
    rewrite (norm_pdf_b64_zero _ d1_deeper_call). do 2 f_equal.
    unfold Rdiv. ring. }
  assert (Hv : vega_b64 (mkRisk 1000000 1 1 0.05 0.2 "call")
               = Return (Float 0)).
  { rewrite (vega_b64_any_kind 1000000 1 1 0.05 0.2 "call" H1).
    rewrite (norm_pdf_b64_zero _ d1_deeper_call). do 2 f_equal.
    unfold Rdiv. ring. }
  repeat split; try assumption.
  - intros (c & E & Hb). rewrite Hc in E. injection E as E. lra.
  - intros (p & E & Hb). rewrite Hp in E. injection E as E. lra.
  - intros (g & E & Hb). rewrite Hg in E. injection E as E. lra.
  - intros (v & E & Hb). rewrite Hv in E. injection E as E. lra.
Qed.

Lemma Leg_init_solves_then_computes_witness :
  exists sigma d g v : R,
    Leg_init fmin_stalled 100 110 1 0.05 5 "put" []
    = (Return (mkLeg 100 110 1 0.05 5 sigma (Float d) (Float g) (Float v) "put"),
       [CallImpliedVolatility (mkBlackScholes 100 110 1 0.05 "put") 0.2 5;
        CallDelta (mkRisk 100 110 1 0.05 sigma "put");
        CallGamma (mkRisk 100 110 1 0.05 sigma "put");
        CallVega (mkRisk 100 110 1 0.05 sigma "put")])
    /\ sigma = 0.2.
Proof.
  destruct (Leg_init_solves_then_computes fmin_stalled
              100 110 1 0.05 5 "put" [])
    as (sigma & d & g & v & Hinit & _ & Hsigma & _);
    [lra | lra | lra | now right |].
  exists sigma, d, g, v. split; [exact Hinit | exact Hsigma].
Defined.

Lemma Strategy_sums_cached_fields_witness :
  let ls := [expected_leg fmin_stalled 100 100 1 0.05 10 "call";
             expected_leg fmin_stalled 100 110 1 0.05 5 "put"] in
  let w := mkWorld (mkStrategy ls) [] in
  Strategy_delta w
  = (Return (total (map (fun l => as_float (leg_delta l)) ls)), w)
  /\ Strategy_gamma w
     = (Return (total (map (fun l => as_float (leg_gamma l)) ls)), w)
  /\ Strategy_vega w
     = (Return (total (map (fun l => as_float (leg_vega l)) ls)), w).
Proof.
  intros ls w.
  destruct (Strategy_sums_cached_fields fmin_stalled ls []
              example_legs_built) as (Hd & Hg & Hv & _).
  repeat split; assumption.
Defined.

(** ** The further properties on concrete contracts *)

Lemma example_call_leg_built :
  built fmin_stalled (expected_leg fmin_stalled 100 100 1 0.05 10 "call").
Proof.
  exists 100, 100, 1, 0.05, 10, "call"%string, []. eexists.
  apply Leg_init_valid; [lra | now left].
Qed.

Lemma example_put_leg_built :
  built fmin_stalled (expected_leg fmin_stalled 100 110 1 0.05 5 "put").
Proof.
  exists 100, 110, 1, 0.05, 5, "put"%string, []. eexists.
  apply Leg_init_valid; [lra | now right].
Qed.



Lemma vega_from_gamma_witness :
  exists g v : R,
    gamma (mkRisk 100 100 1 0.05 0.2 "call") = Return (Float g)
    /\ vega (mkRisk 100 100 1 0.05 0.2 "call") = Return (Float v)
    /\ v = g * 100 ^ 2 * 0.2 * 1 / 100.
Proof.
  apply (vega_from_gamma 100 100 1 0.05 0.2 "call"); lra.
Defined.

Lemma delta_is_spot_derivative_witness :
  exists d : R,
    delta (mkRisk 100 110 1 0.05 0.2 "put") = Return (Float d)
    /\ derivable_pt_lim
         (fun s => premium_fn (mkBlackScholes s 110 1 0.05 "put") 0.2) 100 d.
Proof.
  apply (delta_is_spot_derivative 100 110 1 0.05 0.2 "put");
    solve [lra | now right].
Defined.

Lemma gamma_is_delta_derivative_witness :
  exists g : R,
    gamma (mkRisk 100 110 1 0.05 0.2 "put") = Return (Float g)
    /\ derivable_pt_lim
         (fun s => delta_fn (mkRisk s 110 1 0.05 0.2 "put")) 100 g.
Proof.
  apply (gamma_is_delta_derivative 100 110 1 0.05 0.2 "put");
    solve [lra | now right].
Defined.

Lemma premium_bounds_witness :
  exists c p : R,
    black_scholes (mkBlackScholes 100 100 1 0.05 "call") 0.2
    = Return (Float c)
    /\ black_scholes (mkBlackScholes 100 100 1 0.05 "put") 0.2
       = Return (Float p)
    /\ 0 <= c <= 100
    /\ 0 <= p <= 100 * exp (- (0.05) * 1).
Proof.
  apply (premium_bounds 100 100 1 0.05 0.2); lra.
Defined.

Lemma call_delta_deep_witness :
  exists S_hi S_lo : R,
    0 < S_hi /\ 0 < S_lo
    /\ (forall S : R, S_hi < S ->
          exists d : R,
            delta (mkRisk S 100 1 0.05 0.2 "call") = Return (Float d)
            /\ Rabs (d - 1) < 0.01)
    /\ (forall S : R, 0 < S -> S < S_lo ->
          exists d : R,
            delta (mkRisk S 100 1 0.05 0.2 "call") = Return (Float d)
            /\ Rabs d < 0.01).
Proof.
  apply (call_delta_deep 100 1 0.05 0.2 0.01); lra.
Defined.

Lemma delta_monotone_in_spot_witness :
  exists d1 d2 : R,
    delta (mkRisk 100 100 1 0.05 0.2 "call") = Return (Float d1)
    /\ delta (mkRisk 110 100 1 0.05 0.2 "call") = Return (Float d2)
    /\ d1 <= d2.
Proof.
  apply (delta_monotone_in_spot 100 110 100 1 0.05 0.2 "call");
    solve [lra | now left].
Defined.

Lemma built_leg_invariant_witness :
  let l := expected_leg fmin_stalled 100 110 1 0.05 5 "put" in
  leg_strike l <> 0
  /\ delta (mkRisk (leg_underlying l) (leg_strike l) (leg_maturity l)
              (leg_rate l) (leg_sigma l) (leg_option l))
     = Return (leg_delta l).
Proof.
  intros l.
  destruct (built_leg_invariant fmin_stalled l example_put_leg_built)
    as (H1 & _ & _ & H4 & _).
  split; assumption.
Defined.

Lemma Strategy_order_irrelevant_witness :
  let c := expected_leg fmin_stalled 100 100 1 0.05 10 "call" in
  let p := expected_leg fmin_stalled 100 110 1 0.05 5 "put" in
  fst (Strategy_delta (mkWorld (mkStrategy [c; p]) []))
  = fst (Strategy_delta (mkWorld (mkStrategy [p; c]) [])).
Proof.
  intros c p.
  destruct (Strategy_order_irrelevant fmin_stalled [c; p] [p; c] [] [])
    as (H & _).
  - repeat constructor;
      [exact example_call_leg_built | exact example_put_leg_built].
  - apply perm_swap.
  - exact H.
Defined.

Lemma Strategy_concatenation_witness :
  let c := expected_leg fmin_stalled 100 100 1 0.05 10 "call" in
  let p := expected_leg fmin_stalled 100 110 1 0.05 5 "put" in
  exists d1 d2 : R,
    Strategy_delta (mkWorld (mkStrategy [c]) [])
    = (Return d1, mkWorld (mkStrategy [c]) [])
    /\ Strategy_delta (mkWorld (mkStrategy [p]) [])
       = (Return d2, mkWorld (mkStrategy [p]) [])
    /\ Strategy_delta (mkWorld (mkStrategy [c; p]) [])
       = (Return (d1 + d2), mkWorld (mkStrategy [c; p]) []).
Proof.
  intros c p.
  destruct (Strategy_concatenation fmin_stalled [c] [p] [])
    as (d1 & g1 & v1 & d2 & g2 & v2 & (H1 & _) & (H2 & _) & (H & _)).
  - repeat constructor. exact example_call_leg_built.
  - repeat constructor. exact example_put_leg_built.
  - exists d1, d2. repeat split; assumption.
Defined.

Lemma Strategy_greeks_bounds_witness :
  let c := expected_leg fmin_stalled 100 100 1 0.05 10 "call" in
  let p := expected_leg fmin_stalled 100 110 1 0.05 5 "put" in
  let w := mkWorld (mkStrategy [c; p]) [] in
  exists d g v : R,
    Strategy_delta w = (Return d, w)
    /\ Strategy_gamma w = (Return g, w)
    /\ Strategy_vega w = (Return v, w)
    /\ - 2 <= d <= 2 /\ 0 <= g /\ 0 <= v.
Proof.
  intros c p w.
  destruct (Strategy_greeks_bounds fmin_stalled [c; p] [])
    as (d & g & v & Hd & Hg & Hv & Hb & Hgp & Hvp).
  - repeat constructor;
      try exact example_call_leg_built; try exact example_put_leg_built;
      unfold c, p, expected_leg, fmin_stalled;
      cbn [leg_underlying leg_strike leg_maturity leg_sigma]; lra.
  - exists d, g, v. cbn [length INR] in Hb.
    repeat split; try assumption; lra.
Defined.
